(** * Image_Compressor: the quality search and the compression policy

    A shallow embedding of [img_compress_cli.py].  The Pillow calls of the
    program ([Image.save], [Image.convert], [Image.alpha_composite], ...) are
    not part of the repository; [Image.save] is a parameter of the development
    and the image operations are modelled from the specification. *)

From Stdlib Require Import ZArith QArith Qround Qabs Lqa List Lia Bool.
From Stdlib Require Import Strings.String Strings.Byte.
From Equations Require Import Equations.
From stdpp Require Import base list strings gmap.

Local Open Scope Z_scope.
Local Open Scope string_scope.
Local Open Scope list_scope.

(** ** Byte strings and the size probe *)

Definition bytes := list byte.

(** [len(data) / 1024.0]: a division of an integer by a power of two, which a
    binary float carries out exactly; the quotient is kept as a rational. *)
Definition size_kb (data : bytes) : Q :=
  (inject_Z (Z.of_nat (length data)) / 1024)%Q.

(** Python's [x <= n] and [x > n] between a float and an int; Python
    compares the two exact values. *)
Definition float_le_int (x : Q) (n : Z) : bool := Qle_bool x (inject_Z n).
Definition float_gt_int (x : Q) (n : Z) : bool := negb (Qle_bool x (inject_Z n)).

(** ** Exceptions and the state monad *)

Inductive exn : Type :=
| KeyError (key : string)
| ValueError (msg : string).

Inductive outcome (A : Type) : Type :=
| Returns (a : A)
| Raises (e : exn).
Arguments Returns {A} a.
Arguments Raises {A} e.

Module St.
Section Monad.
(** [Σ] is the state threaded through the calls. *)
Context {Σ : Type}.

Definition M (A : Type) : Type := Σ -> outcome A * Σ.

Definition ret {A} (a : A) : M A := fun σ => (Returns a, σ).

Definition bind {A B} (k : A -> M B) (m : M A) : M B :=
  fun σ =>
    match m σ with
    | (Returns a, σ') => k a σ'
    | (Raises e, σ') => (Raises e, σ')
    end.

Definition raise {A} (e : exn) : M A := fun σ => (Raises e, σ).

(** Lift a pure computation that may raise. *)
Definition lift {A} (o : outcome A) : M A := fun σ => (o, σ).
End Monad.
Arguments M : clear implicits.
End St.

#[global] Instance st_ret {Σ} : MRet (St.M Σ) := @St.ret Σ.
#[global] Instance st_bind {Σ} : MBind (St.M Σ) := @St.bind Σ.

(** ** Images

    Modelled from the spec: the Pillow [Image] class is not part of the
    sources.  Section 3 of the specification gives an image a pixel buffer, a
    width, a height and one of five colour modes, the palette mode with an
    optional transparency entry. *)

Abbreviation rgb := (byte * byte * byte)%type.
Abbreviation rgba := (byte * byte * byte * byte)%type.

(** [info["transparency"]] of a palette image: the index of the transparent
    entry, or one alpha value per palette entry. *)
Inductive transparency : Type :=
| TranspIndex (i : N)
| TranspAlphas (alphas : list byte).

Inductive raster : Type :=
| RasterL (px : list byte)
| RasterRGB (px : list rgb)
| RasterRGBA (px : list rgba)
| RasterLA (px : list (byte * byte))
| RasterP (palette : list rgb) (px : list byte).

Record Image : Type := mkImage {
  im_raster : raster;
  im_width : Z;
  im_height : Z;
  im_transparency : option transparency
}.

(** [img.mode] *)
Definition mode (img : Image) : string :=
  match im_raster img with
  | RasterL _ => "L"
  | RasterRGB _ => "RGB"
  | RasterRGBA _ => "RGBA"
  | RasterLA _ => "LA"
  | RasterP _ _ => "P"
  end.

(** ** The object store

    Python passes images by reference.  The store lists the image objects
    allocated so far; a reference is an index into it.  References come from
    [alloc] only, so a lookup of a live reference never falls outside. *)

Definition ref : Type := nat.
Abbreviation store := (list Image).

#[global] Instance Image_inhabited : Inhabited Image :=
  populate (mkImage (RasterRGB []) 0 0 None).

Definition deref (r : ref) : St.M store Image :=
  fun σ => (Returns (σ !!! r), σ).

Definition alloc (img : Image) : St.M store ref :=
  fun σ => (Returns (length σ), σ ++ [img]).

(** ** Pillow's image operations *)

Module PIL.

Definition opaque : byte := "255"%byte.
Definition black : rgb := ("000", "000", "000")%byte.

(** C's conversion of an unsigned value to [UINT8]. *)
Definition u8 (n : N) : byte := default "000"%byte (Byte.of_N (n mod 256)).

(** Alpha of palette entry [i]. *)
Definition palette_alpha (t : option transparency) (i : byte) : byte :=
  match t with
  | None => opaque
  | Some (TranspIndex k) => if N.eqb (Byte.to_N i) k then "000"%byte else opaque
  | Some (TranspAlphas l) => nth (N.to_nat (Byte.to_N i)) l opaque
  end.

Definition palette_rgb (palette : list rgb) (i : byte) : rgb :=
  nth (N.to_nat (Byte.to_N i)) palette black.

(** Modelled from the spec: the pixels of [img.convert("RGBA")], which
    Pillow computes outside the sources.  A grey level fills the three
    colour channels, a palette index is looked up, and a mode without alpha
    is opaque. *)
Definition rgba_pixels (img : Image) : list rgba :=
  match im_raster img with
  | RasterL px => map (fun l => (l, l, l, opaque)) px
  | RasterRGB px => map (fun '(r, g, b) => (r, g, b, opaque)) px
  | RasterRGBA px => px
  | RasterLA px => map (fun '(l, a) => (l, l, l, a)) px
  | RasterP palette px =>
      map (fun i => let '(r, g, b) := palette_rgb palette i in
                    (r, g, b, palette_alpha (im_transparency img) i)) px
  end.

(** Modelled from the spec: the pixels of [img.convert("RGB")] (section
    4.1: a pure format conversion); the alpha channel is dropped. *)
Definition rgb_pixels (img : Image) : list rgb :=
  map (fun '(r, g, b, _) => (r, g, b)) (rgba_pixels img).

(** The images [img.convert("RGBA")] and [img.convert("RGB")] build; the
    result carries no transparency entry. *)
Definition rgba_image (img : Image) : Image :=
  mkImage (RasterRGBA (rgba_pixels img)) (im_width img) (im_height img) None.

Definition rgb_image (img : Image) : Image :=
  mkImage (RasterRGB (rgb_pixels img)) (im_width img) (im_height img) None.

(** Modelled from the spec: [img.convert(mode)] for the two target modes
    the program asks for; it always yields a new image object. *)
Definition convert (r : ref) (target : string) : St.M store ref :=
  img ← deref r;
  if String.eqb target "RGBA" then alloc (rgba_image img)
  else if String.eqb target "RGB" then alloc (rgb_image img)
  else St.raise (ValueError "conversion not supported").

(** The image [Image.new("RGB", size, color)] builds. *)
Definition filled_image (size : Z * Z) (color : rgb) : Image :=
  mkImage (RasterRGB (replicate (Z.to_nat (fst size * snd size)) color))
          (fst size) (snd size) None.

(** Modelled from the spec: [Image.new("RGB", size, color)], a new image
    filled with one colour. *)
Definition new_rgb (size : Z * Z) (color : rgb) : St.M store ref :=
  alloc (filled_image size color).

Definition PRECISION_BITS : N := 7.
Definition SHIFTFORDIV255 (a : N) : N := N.shiftr (N.shiftr a 8 + a) 8.

(** Modelled from the spec: one pixel of [Image.alpha_composite(dst, src)].
    Section 4.1 gives [out = src_color * src_alpha + background *
    (1 - src_alpha)]; on 8-bit channels Pillow evaluates it in fixed point
    with 7 extra bits and rounded divisions by 255, and copies the
    destination under a fully transparent source pixel.  No intermediate
    value reaches [2^32]. *)
Definition composite_channel (coef1 coef2 : N) (s d : byte) : byte :=
  u8 (N.shiftr (SHIFTFORDIV255 (Byte.to_N s * coef1 + Byte.to_N d * coef2
                                + N.shiftl 128 PRECISION_BITS))
               PRECISION_BITS).

Definition composite_pixel (dst src : rgba) : rgba :=
  let '(dr, dg, db, da) := dst in
  let '(sr, sg, sb, sa) := src in
  if N.eqb (Byte.to_N sa) 0 then dst
  else
    let blend := (Byte.to_N da * (255 - Byte.to_N sa))%N in
    let outa255 := (Byte.to_N sa * 255 + blend)%N in
    let coef1 :=
      (Byte.to_N sa * 255 * 255 * N.shiftl 1 PRECISION_BITS / outa255)%N in
    let coef2 := (255 * N.shiftl 1 PRECISION_BITS - coef1)%N in
    (composite_channel coef1 coef2 sr dr,
     composite_channel coef1 coef2 sg dg,
     composite_channel coef1 coef2 sb db,
     u8 (SHIFTFORDIV255 (outa255 + 128))).

(** The image [Image.alpha_composite] builds from the pixels of two RGBA
    images of one size. *)
Definition composite_image (im1 : Image) (dst src : list rgba) : Image :=
  mkImage (RasterRGBA (zip_with composite_pixel dst src))
          (im_width im1) (im_height im1) None.

(** Modelled from the spec: [Image.alpha_composite(im1, im2)] composites
    [im2] over [im1] into a new image; both must be RGBA images of one
    size. *)
Definition alpha_composite (r1 r2 : ref) : St.M store ref :=
  im1 ← deref r1;
  im2 ← deref r2;
  match im_raster im1, im_raster im2 with
  | RasterRGBA dst, RasterRGBA src =>
      if Z.eqb (im_width im1) (im_width im2)
         && Z.eqb (im_height im1) (im_height im2)
      then alloc (composite_image im1 dst src)
      else St.raise (ValueError "images do not match")
  | _, _ => St.raise (ValueError "images do not match")
  end.

End PIL.

(** ** B) Normalize *)

Section Normalize.
(** [ImageColor.getrgb]: the colour named by a string, or [ValueError]. *)
Variable getrgb : string -> outcome rgb.

Definition has_alpha (img : Image) : bool :=
  (String.eqb (mode img) "RGBA" || String.eqb (mode img) "LA")
  || (String.eqb (mode img) "P" && bool_decide (is_Some (im_transparency img))).

Definition normalize_for_output (img : ref) (out_fmt bg : string) :
    St.M store ref :=
  if String.eqb out_fmt "jpg" then
    im ← deref img;
    if has_alpha im then
      bg_rgb ← St.lift (getrgb bg);
      base ← PIL.new_rgb (im_width im, im_height im) bg_rgb;
      rgba ← PIL.convert img "RGBA";
      base_rgba ← PIL.convert base "RGBA";
      composed ← PIL.alpha_composite base_rgba rgba;
      PIL.convert composed "RGB"
    else if negb (String.eqb (mode im) "RGB") then
      PIL.convert img "RGB"
    else mret img
  else mret img.
End Normalize.

(** ** C) Encode / size helpers *)

(** The keyword arguments handed to [img.save]. *)
Record save_params : Type := mkParams {
  p_quality : option Z;
  p_optimize : option bool;
  p_compress_level : option Z
}.

Definition no_params : save_params := mkParams None None None.

(** One call of [img.save(buf, format=pil_fmt, **params)]. *)
Record save_call : Type := mkCall {
  call_img : Image;
  call_fmt : string;
  call_params : save_params
}.

(** Append one encoder call to the log. *)
Definition record (c : save_call) : St.M (list save_call) unit :=
  fun log => (Returns tt, log ++ [c]).

Definition fmt_map (out_fmt : string) : option string :=
  if String.eqb out_fmt "jpg" then Some "JPEG"
  else if String.eqb out_fmt "png" then Some "PNG"
  else if String.eqb out_fmt "webp" then Some "WEBP"
  else None.

(** [out_fmt in ("jpg", "webp")] *)
Definition is_lossy (out_fmt : string) : bool :=
  String.eqb out_fmt "jpg" || String.eqb out_fmt "webp".

(** Python's [round(x, 2)] of a float: the nearest multiple of 1/100 of the
    exact value, a tie going to the even one.  The float returned is the
    double nearest to that decimal, which lies on the same side of every
    integer budget as the decimal itself. *)
Definition round_half_even (x : Q) : Z :=
  let f := Qfloor x in
  match Qcompare (x - inject_Z f) (1 # 2) with
  | Lt => f
  | Gt => f + 1
  | Eq => if Z.even f then f else f + 1
  end.

Definition round2 (x : Q) : Q := (inject_Z (round_half_even (x * 100)) / 100)%Q.

(** The values stored in the [meta] dictionary. *)
Inductive pyval : Type :=
| PyNone
| PyStr (s : string)
| PyInt (n : Z)
| PyFloat (x : Q).

(** [argparse.Namespace] as filled by [parse_args]. *)
Record Namespace : Type := mkArgs {
  input : string;
  out_fmt : string;
  target_kb : Z;
  out_dir : string;
  bg : string;
  q_min : Z;
  q_max : Z
}.

Section Compressor.
(** Pillow's encoder behind [img.save]: a deterministic function of the
    image, the format and the parameters (section 4.2 of the
    specification).  An [img.save] that raises aborts the program; the
    results below are about encodes that return their bytes. *)
Variable save : Image -> string -> save_params -> bytes.

Abbreviation M := (St.M (list save_call)).

(** No call site of the program passes [**extra]. *)
Definition encode_to_bytes (img : Image) (out_fmt : string)
    (quality : option Z) : M bytes :=
  match fmt_map out_fmt with
  | None => St.raise (KeyError out_fmt)
  | Some pil_fmt =>
      let params := no_params in
      let params :=
        match quality with
        | Some q =>
            if is_lossy out_fmt
            then mkParams (Some q) (p_optimize params) (p_compress_level params)
            else params
        | None => params
        end in
      let params :=
        if String.eqb out_fmt "png"
        then mkParams (p_quality params) (Some true) (Some 9)
        else params in
      _ ← record (mkCall img pil_fmt params);
      mret (save img pil_fmt params)
  end.

Section Search.
Variables (img : Image) (out_fmt : string) (target_kb : Z).

Definition S (q : Z) : M (bytes * Q) :=
  b ← encode_to_bytes img out_fmt (Some q);
  mret (b, size_kb b).

(** The [while lo <= hi] loop; its state is [lo], [hi], [best_b],
    [best_q] and [iterations]. *)
Equations? bisect (lo hi : Z) (best_b : bytes) (best_q iterations : Z) :
    M (bytes * Z * Z) by wf (Z.to_nat (hi - lo + 1)) lt :=
  bisect lo hi best_b best_q iterations with Z_le_gt_dec lo hi := {
    | left _ =>
        '(b_mid, s_mid) ← S ((lo + hi) / 2);
        if float_le_int s_mid target_kb
        then bisect ((lo + hi) / 2 + 1) hi b_mid ((lo + hi) / 2) (iterations + 1)
        else bisect lo ((lo + hi) / 2 - 1) best_b best_q (iterations + 1)
    | right _ => mret (best_b, best_q, iterations) }.
Proof.
  all: pose proof (Z.div_mod (lo + hi) 2 ltac:(lia));
       pose proof (Z.mod_pos_bound (lo + hi) 2 ltac:(lia)); lia.
Qed.

Definition find_best_quality_lossy (q_min q_max : Z) :
    M (bytes * Z * Z * string) :=
  '(b_max, s_max) ← S q_max;
  if float_le_int s_max target_kb
  then mret (b_max, q_max, 1, "already_ok_at_qmax")
  else
    '(b_min, s_min) ← S q_min;
    if float_gt_int s_min target_kb
    then mret (b_min, q_min, 2, "no_solution_within_bounds")
    else
      '(best_b, best_q, iterations) ← bisect q_min q_max b_min q_min 2;
      mret (best_b, best_q, iterations, "ok").
End Search.

(** ** D) Compression policy dispatcher *)

Definition compress_png_mvp (img : Image) (target_kb : Z) :
    M (bytes * gmap string pyval) :=
  out_bytes ← encode_to_bytes img "png" None;
  let final := round2 (size_kb out_bytes) in
  let status := if float_le_int final target_kb then "ok" else "png_over_target" in
  let meta : gmap string pyval :=
    <["status" := PyStr status]>
    (<["out_fmt" := PyStr "png"]>
    (<["quality" := PyNone]>
    (<["iterations" := PyInt 0]>
    (<["width" := PyInt (im_width img)]>
    (<["height" := PyInt (im_height img)]>
    (<["final_kb" := PyFloat final]>
    (<["target_kb" := PyInt target_kb]>
    (<["note" := PyStr "PNG is lossless; MVP only applies lossless optimization."]>
     ∅)))))))) in
  mret (out_bytes, meta).

Definition compress (img : Image) (args : Namespace) :
    M (bytes * gmap string pyval) :=
  if is_lossy (out_fmt args) then
    '(out_bytes, best_q, iters, status) ←
      find_best_quality_lossy img (out_fmt args) (target_kb args)
                              (q_min args) (q_max args);
    let meta : gmap string pyval :=
      <["status" := PyStr status]>
      (<["out_fmt" := PyStr (out_fmt args)]>
      (<["quality" := PyInt best_q]>
      (<["iterations" := PyInt iters]>
      (<["width" := PyInt (im_width img)]>
      (<["height" := PyInt (im_height img)]>
      (<["final_kb" := PyFloat (round2 (size_kb out_bytes))]>
      (<["target_kb" := PyInt (target_kb args)]>
      (<["q_min" := PyInt (q_min args)]>
      (<["q_max" := PyInt (q_max args)]>
       ∅))))))))) in
    mret (out_bytes, meta)
  else if String.eqb (out_fmt args) "png" then
    compress_png_mvp img (target_kb args)
  else St.raise (ValueError ("Unsupported out_fmt: " +:+ out_fmt args)).
End Compressor.

(** ** What a run of the search shows *)

Section Observations.
Variable save : Image -> string -> save_params -> bytes.

(** The encoder's output at quality [q], read off [encode_to_bytes]. *)
Definition encoded (img : Image) (out_fmt : string) (q : Z) : bytes :=
  match fst (encode_to_bytes save img out_fmt (Some q) []) with
  | Returns b => b
  | Raises _ => []
  end.

(** The encoded size at quality [q], in kilobytes. *)
Definition size (img : Image) (out_fmt : string) (q : Z) : Q :=
  size_kb (encoded img out_fmt q).

(** The quality values passed to the encoder, in call order. *)
Definition qualities (log : list save_call) : list Z :=
  omap (fun c => p_quality (call_params c)) log.

(** The runs of the [while] loop: from the loop state to the list of the
    midpoints encoded and the final [(best_b, best_q, iterations)]. *)
Inductive bisect_run (img : Image) (out_fmt : string) (target_kb : Z) :
    Z -> Z -> bytes -> Z -> Z -> list Z -> bytes * Z * Z -> Prop :=
| run_exit lo hi best_b best_q iterations :
    lo > hi ->
    bisect_run img out_fmt target_kb lo hi best_b best_q iterations []
               (best_b, best_q, iterations)
| run_fits lo hi best_b best_q iterations mids r :
    lo <= hi ->
    float_le_int (size img out_fmt ((lo + hi) / 2)) target_kb = true ->
    bisect_run img out_fmt target_kb ((lo + hi) / 2 + 1) hi
               (encoded img out_fmt ((lo + hi) / 2)) ((lo + hi) / 2)
               (iterations + 1) mids r ->
    bisect_run img out_fmt target_kb lo hi best_b best_q iterations
               ((lo + hi) / 2 :: mids) r
| run_too_big lo hi best_b best_q iterations mids r :
    lo <= hi ->
    float_le_int (size img out_fmt ((lo + hi) / 2)) target_kb = false ->
    bisect_run img out_fmt target_kb lo ((lo + hi) / 2 - 1)
               best_b best_q (iterations + 1) mids r ->
    bisect_run img out_fmt target_kb lo hi best_b best_q iterations
               ((lo + hi) / 2 :: mids) r.

(** The log entry of the encode of [img] at quality [q] in a lossy format. *)
Definition the_call (img : Image) (out_fmt : string) (q : Z) : save_call :=
  mkCall img (default "" (fmt_map out_fmt)) (mkParams (Some q) None None).
End Observations.

(** ** What a normalisation shows *)

(** A raster with one pixel per position. *)
Definition well_formed (img : Image) : Prop :=
  length (PIL.rgba_pixels img) = Z.to_nat (im_width img * im_height img).

(** The image the flattening branch returns for the source [img] and the
    background colour [c]. *)
Definition flattened (img : Image) (c : rgb) : Image :=
  PIL.rgb_image
    (PIL.composite_image
       (PIL.rgba_image (PIL.filled_image (im_width img, im_height img) c))
       (PIL.rgba_pixels (PIL.filled_image (im_width img, im_height img) c))
       (PIL.rgba_pixels img)).

(** The rounded division by 255 inside [PIL.composite_channel], as a function
    of the unscaled value. *)
Definition div255_round (n : N) : N :=
  N.shiftr (PIL.SHIFTFORDIV255 (n * N.shiftl 1 PIL.PRECISION_BITS
                                + N.shiftl 128 PIL.PRECISION_BITS))
           PIL.PRECISION_BITS.

(** 255 times [src * alpha + background * (1 - alpha)] at the alpha
    [a / 255]. *)
Definition blend255 (src background a : byte) : Z :=
  Z.of_N (Byte.to_N src) * Z.of_N (Byte.to_N a)
  + Z.of_N (Byte.to_N background) * (255 - Z.of_N (Byte.to_N a)).

(** [out] is that blend rounded to the nearest 8-bit value. *)
Definition rounds_blend (out src background a : byte) : Prop :=
  Z.abs (255 * Z.of_N (Byte.to_N out) - blend255 src background a) <= 127.

(** [p] holds at [n], [n + 1], ..., [n + fuel - 1]. *)
Fixpoint check_from (p : N -> bool) (fuel : nat) (n : N) : bool :=
  match fuel with
  | O => true
  | Datatypes.S fuel' => p n && check_from p fuel' (N.succ n)
  end.

(** ** Sample data for the concrete runs *)

Definition sample_getrgb (color : string) : outcome rgb :=
  if String.eqb color "#ffffff" then Returns ("255", "255", "255")%byte
  else Raises (ValueError "unknown color specifier").

(** Two pixels of one colour, the first opaque and the second transparent. *)
Definition sample_rgba : Image :=
  mkImage (RasterRGBA [("010", "020", "030", "255");
                       ("010", "020", "030", "000")]%byte)
          2 1 None.

(** ** Sample encoders for the concrete runs *)

Definition sample_img : Image :=
  mkImage (RasterRGB [("255", "000", "000")%byte]) 1 1 None.

(** An encoder whose output has [kb q] kilobytes at quality [q]. *)
Definition sized_save (kb : Z -> Z) (img : Image) (fmt : string)
    (p : save_params) : bytes :=
  match p_quality p with
  | Some q => replicate (Z.to_nat (1024 * kb q)) "000"%byte
  | None => []
  end.

(** A step in the size: nothing up to quality [k], one kilobyte above. *)
Definition step_kb (k q : Z) : Z := if (q <=? k)%Z then 0 else 1.

(** An encoder with a fixed number of output bytes. *)
Definition fixed_save (n : nat) (img : Image) (fmt : string)
    (p : save_params) : bytes := replicate n "000"%byte.

(** * Properties *)

(** ** Size comparisons *)

Lemma size_kb_le (data : bytes) (n : Z) :
  float_le_int (size_kb data) n = (Z.of_nat (length data) <=? 1024 * n)%Z.
Proof.
  unfold float_le_int, size_kb, Qle_bool, Qdiv, Qmult, Qinv, inject_Z; simpl.
  rewrite !Z.mul_1_r. change (Z.pos (1 * 1024)) with 1024.
  now rewrite (Z.mul_comm n).
Qed.

Lemma float_le_int_true (x : Q) (n : Z) :
  float_le_int x n = true <-> (x <= inject_Z n)%Q.
Proof. apply Qle_bool_iff. Qed.

Lemma float_le_int_false (x : Q) (n : Z) :
  float_le_int x n = false <-> (inject_Z n < x)%Q.
Proof.
  unfold float_le_int. rewrite <- not_true_iff_false, Qle_bool_iff.
  split; [apply Qnot_le_lt | apply Qlt_not_le].
Qed.

Lemma size_kb_mono (a b : bytes) :
  (length a <= length b)%nat -> (size_kb a <= size_kb b)%Q.
Proof.
  intros H. unfold size_kb, Qle, Qdiv, Qmult, Qinv, inject_Z; simpl. lia.
Qed.

Lemma float_gt_int_negb (x : Q) (n : Z) :
  float_gt_int x n = negb (float_le_int x n).
Proof. reflexivity. Qed.

(** ** The encoder calls of a lossy search *)

Lemma is_lossy_cases (f : string) :
  is_lossy f = true -> f = "jpg" \/ f = "webp".
Proof.
  unfold is_lossy. intros H. apply orb_true_iff in H.
  destruct H as [H | H]; apply String.eqb_eq in H; auto.
Qed.

Lemma is_lossy_fmt_map (f : string) :
  is_lossy f = true -> exists pil_fmt, fmt_map f = Some pil_fmt.
Proof.
  intros H. destruct (is_lossy_cases f H) as [-> | ->]; eexists; reflexivity.
Qed.

Lemma qualities_app (l1 l2 : list save_call) :
  qualities (l1 ++ l2) = qualities l1 ++ qualities l2.
Proof. unfold qualities. apply omap_app. Qed.

Section SearchFacts.
Variable save : Image -> string -> save_params -> bytes.
Variables (img : Image) (out_fmt : string) (target_kb : Z).
Hypothesis lossy : is_lossy out_fmt = true.

Lemma qualities_the_calls (qs : list Z) :
  qualities (map (the_call img out_fmt) qs) = qs.
Proof.
  induction qs as [| q qs IH]; [reflexivity |].
  change (qualities (map (the_call img out_fmt) (q :: qs)))
    with (q :: qualities (map (the_call img out_fmt) qs)).
  now rewrite IH.
Qed.

Lemma encode_lossy (q : Z) (log : list save_call) :
  encode_to_bytes save img out_fmt (Some q) log
  = (Returns (encoded save img out_fmt q), log ++ [the_call img out_fmt q]).
Proof.
  unfold encoded, the_call, encode_to_bytes.
  destruct (is_lossy_cases _ lossy) as [-> | ->]; reflexivity.
Qed.

Lemma S_lossy (q : Z) (log : list save_call) :
  S save img out_fmt q log
  = (Returns (encoded save img out_fmt q, size save img out_fmt q),
     log ++ [the_call img out_fmt q]).
Proof.
  unfold S, mbind, st_bind, St.bind. now rewrite encode_lossy.
Qed.

Lemma bisect_loop_eq (lo hi : Z) (best_b : bytes) (best_q iterations : Z) :
  bisect save img out_fmt target_kb lo hi best_b best_q iterations
  = if Z_le_gt_dec lo hi
    then '(b_mid, s_mid) ← S save img out_fmt ((lo + hi) / 2);
         if float_le_int s_mid target_kb
         then bisect save img out_fmt target_kb ((lo + hi) / 2 + 1) hi
                     b_mid ((lo + hi) / 2) (iterations + 1)
         else bisect save img out_fmt target_kb lo ((lo + hi) / 2 - 1)
                     best_b best_q (iterations + 1)
    else mret (best_b, best_q, iterations).
Proof.
  rewrite bisect_equation_1. destruct (Z_le_gt_dec lo hi); reflexivity.
Qed.

Lemma midpoint_bounds (lo hi : Z) :
  lo <= hi -> lo <= (lo + hi) / 2 <= hi.
Proof.
  intros H. pose proof (Z.div_mod (lo + hi) 2 ltac:(lia)).
  pose proof (Z.mod_pos_bound (lo + hi) 2 ltac:(lia)). lia.
Qed.

(** The loop terminates on every state, and what it does is a
    [bisect_run]. *)
Lemma bisect_runs (lo hi : Z) (best_b : bytes) (best_q iterations : Z)
    (log : list save_call) :
  exists mids r,
    bisect_run save img out_fmt target_kb lo hi best_b best_q iterations mids r
    /\ bisect save img out_fmt target_kb lo hi best_b best_q iterations log
       = (Returns r, log ++ map (the_call img out_fmt) mids).
Proof.
  remember (Z.to_nat (hi - lo + 1)) as n eqn:Hn.
  revert lo hi best_b best_q iterations log Hn.
  induction n as [n IH] using lt_wf_ind. intros lo hi b q it log Hn.
  rewrite bisect_loop_eq. destruct (Z_le_gt_dec lo hi) as [Hle | Hgt].
  - pose proof (midpoint_bounds lo hi Hle) as Hmid.
    unfold mbind, st_bind, St.bind. rewrite S_lossy.
    destruct (float_le_int (size save img out_fmt ((lo + hi) / 2)) target_kb)
      eqn:Hfit.
    + destruct (IH (Z.to_nat (hi - ((lo + hi) / 2 + 1) + 1)) ltac:(lia)
                  ((lo + hi) / 2 + 1) hi (encoded save img out_fmt ((lo + hi) / 2))
                  ((lo + hi) / 2) (it + 1)
                  (log ++ [the_call img out_fmt ((lo + hi) / 2)])
                  eq_refl)
        as (mids & r & Hrun & Heq).
      exists ((lo + hi) / 2 :: mids), r. split.
      * now apply run_fits.
      * rewrite Heq. simpl. now rewrite <- app_assoc.
    + destruct (IH (Z.to_nat ((lo + hi) / 2 - 1 - lo + 1)) ltac:(lia)
                  lo ((lo + hi) / 2 - 1) b q (it + 1)
                  (log ++ [the_call img out_fmt ((lo + hi) / 2)]) eq_refl)
        as (mids & r & Hrun & Heq).
      exists ((lo + hi) / 2 :: mids), r. split.
      * now apply run_too_big.
      * rewrite Heq. simpl. now rewrite <- app_assoc.
  - exists [], (b, q, it). split; [now apply run_exit |].
    simpl. now rewrite app_nil_r.
Qed.

(** The three ways a search can go. *)
Lemma search_cases (q_min q_max : Z) :
  let run :=
    find_best_quality_lossy save img out_fmt target_kb q_min q_max [] in
  (float_le_int (size save img out_fmt q_max) target_kb = true
   /\ run = (Returns (encoded save img out_fmt q_max, q_max, 1,
                      "already_ok_at_qmax"),
             [the_call img out_fmt q_max]))
  \/ (float_le_int (size save img out_fmt q_max) target_kb = false
      /\ float_le_int (size save img out_fmt q_min) target_kb = false
      /\ run = (Returns (encoded save img out_fmt q_min, q_min, 2,
                         "no_solution_within_bounds"),
                [the_call img out_fmt q_max; the_call img out_fmt q_min]))
  \/ (float_le_int (size save img out_fmt q_max) target_kb = false
      /\ float_le_int (size save img out_fmt q_min) target_kb = true
      /\ exists mids best_b best_q iterations,
           bisect_run save img out_fmt target_kb q_min q_max
                      (encoded save img out_fmt q_min) q_min 2 mids
                      (best_b, best_q, iterations)
           /\ run = (Returns (best_b, best_q, iterations, "ok"),
                     [the_call img out_fmt q_max; the_call img out_fmt q_min]
                     ++ map (the_call img out_fmt) mids)).
Proof.
  unfold find_best_quality_lossy, mbind, st_bind, St.bind. simpl.
  rewrite S_lossy.
  destruct (float_le_int (size save img out_fmt q_max) target_kb) eqn:Hmax;
    [left; split; reflexivity |].
  right. rewrite S_lossy. rewrite float_gt_int_negb.
  destruct (float_le_int (size save img out_fmt q_min) target_kb) eqn:Hmin;
    simpl.
  - right. do 2 (split; [reflexivity |]).
    destruct (bisect_runs q_min q_max (encoded save img out_fmt q_min) q_min 2
                ([] ++ [the_call img out_fmt q_max]
                 ++ [the_call img out_fmt q_min]))
      as (mids & [[b q] it] & Hrun & Heq).
    exists mids, b, q, it. split; [exact Hrun |].
    simpl in Heq. simpl. now rewrite Heq.
  - left. repeat split; reflexivity.
Qed.

(** *** The runs of the loop *)

Lemma run_mids_in_range lo hi b q it mids r :
  bisect_run save img out_fmt target_kb lo hi b q it mids r ->
  Forall (fun m => lo <= m <= hi) mids.
Proof.
  induction 1 as [| lo hi b q it mids r Hle Hfit Hrun IH
                  | lo hi b q it mids r Hle Hfit Hrun IH].
  - constructor.
  - pose proof (midpoint_bounds lo hi Hle). constructor; [lia |].
    eapply Forall_impl; [exact IH |]. simpl. intros; lia.
  - pose proof (midpoint_bounds lo hi Hle). constructor; [lia |].
    eapply Forall_impl; [exact IH |]. simpl. intros; lia.
Qed.


Lemma run_iterations lo hi b q it mids b' q' it' :
  bisect_run save img out_fmt target_kb lo hi b q it mids (b', q', it') ->
  it' = it + Z.of_nat (length mids).
Proof.
  intros H. remember (b', q', it') as r eqn:Hr. revert Hr.
  induction H as [| lo hi b q it mids r Hle Hfit Hrun IH
                  | lo hi b q it mids r Hle Hfit Hrun IH]; intros Hr.
  - inversion Hr. simpl. lia.
  - specialize (IH Hr). simpl length. lia.
  - specialize (IH Hr). simpl length. lia.
Qed.

(** Halving: a range of [n] qualities leaves at most [n / 2] of them. *)
Lemma log2_up_half (n n' : Z) :
  0 < n -> 2 * n' <= n -> 1 + Z.log2_up (n' + 1) <= Z.log2_up (n + 1).
Proof.
  intros Hn Hn'.
  destruct (Z.log2_up_spec (n + 1) ltac:(lia)) as [_ Hup].
  assert (Hk : 0 < Z.log2_up (n + 1)) by (apply Z.log2_up_pos; lia).
  destruct (Z_le_gt_dec n' 0) as [Hle | Hgt].
  - rewrite (Z.log2_up_eqn0 (n' + 1)); lia.
  - enough (Z.log2_up (n' + 1) <= Z.log2_up (n + 1) - 1) by lia.
    apply Z.log2_up_le_pow2; [lia |].
    replace (Z.log2_up (n + 1)) with (Z.succ (Z.log2_up (n + 1) - 1)) in Hup by lia.
    rewrite Z.pow_succ_r in Hup by lia. lia.
Qed.

Lemma run_length_bound lo hi b q it mids r :
  bisect_run save img out_fmt target_kb lo hi b q it mids r ->
  Z.of_nat (length mids) <= Z.log2_up (hi - lo + 2).
Proof.
  induction 1 as [| lo hi b q it mids r Hle Hfit Hrun IH
                  | lo hi b q it mids r Hle Hfit Hrun IH].
  - simpl. apply Z.log2_up_nonneg.
  - pose proof (Z.div_mod (lo + hi) 2 ltac:(lia)).
    pose proof (Z.mod_pos_bound (lo + hi) 2 ltac:(lia)).
    pose proof (log2_up_half (hi - lo + 1) (hi - ((lo + hi) / 2 + 1) + 1)
                  ltac:(lia) ltac:(lia)) as Hhalf.
    replace (hi - ((lo + hi) / 2 + 1) + 1 + 1)
      with (hi - ((lo + hi) / 2 + 1) + 2) in Hhalf by lia.
    replace (hi - lo + 1 + 1) with (hi - lo + 2) in Hhalf by lia.
    simpl length. lia.
  - pose proof (Z.div_mod (lo + hi) 2 ltac:(lia)).
    pose proof (Z.mod_pos_bound (lo + hi) 2 ltac:(lia)).
    pose proof (log2_up_half (hi - lo + 1) ((lo + hi) / 2 - 1 - lo + 1)
                  ltac:(lia) ltac:(lia)) as Hhalf.
    replace ((lo + hi) / 2 - 1 - lo + 1 + 1)
      with ((lo + hi) / 2 - 1 - lo + 2) in Hhalf by lia.
    replace (hi - lo + 1 + 1) with (hi - lo + 2) in Hhalf by lia.
    simpl length. lia.
Qed.

(** The running best is the start value or a midpoint that fits. *)
Lemma run_best lo hi b q it mids b' q' it' :
  bisect_run save img out_fmt target_kb lo hi b q it mids (b', q', it') ->
  (b' = b /\ q' = q)
  \/ (b' = encoded save img out_fmt q'
      /\ float_le_int (size save img out_fmt q') target_kb = true
      /\ q' ∈ mids).
Proof.
  intros H. remember (b', q', it') as r eqn:Hr. revert Hr.
  induction H as [| lo hi b q it mids r Hle Hfit Hrun IH
                  | lo hi b q it mids r Hle Hfit Hrun IH]; intros Hr.
  - inversion Hr. now left.
  - right. destruct (IH Hr) as [[-> ->] | (? & ? & ?)].
    + repeat split; [exact Hfit | constructor].
    + repeat split; [assumption .. | now constructor].
  - destruct (IH Hr) as [[-> ->] | (? & ? & ?)]; [now left |].
    right. repeat split; [assumption .. | now constructor].
Qed.

(** The loop invariant behind the highest fitting quality. *)
Lemma run_highest q_min q_max lo hi b q it mids b' q' it' :
  bisect_run save img out_fmt target_kb lo hi b q it mids (b', q', it') ->
  float_le_int (size save img out_fmt q_min) target_kb = true ->
  q_min <= lo -> lo <= hi + 1 -> q_min <= hi <= q_max ->
  float_le_int (size save img out_fmt q) target_kb = true ->
  (q = lo - 1 \/ lo = q_min /\ q = q_min) ->
  (hi = q_max \/ float_le_int (size save img out_fmt (hi + 1)) target_kb = false) ->
  float_le_int (size save img out_fmt q') target_kb = true /\ q_min <= q' <= q_max
  /\ (q' = q_max \/ float_le_int (size save img out_fmt (q' + 1)) target_kb = false).
Proof.
  intros H Hmin. remember (b', q', it') as r eqn:Hr. revert Hr.
  induction H as [| lo hi b q it mids r Hle Hfit Hrun IH
                  | lo hi b q it mids r Hle Hfit Hrun IH];
    intros Hr Hlo Hlohi Hhi Hq Hbest Htop.
  - inversion Hr; subst. assert (q' = hi) as -> by lia. auto.
  - pose proof (midpoint_bounds lo hi Hle).
    apply IH; auto; lia.
  - pose proof (midpoint_bounds lo hi Hle).
    assert ((lo + hi) / 2 <> q_min).
    { intros Heq. rewrite Heq in Hfit. congruence. }
    apply IH; auto; try lia.
    right. now replace ((lo + hi) / 2 - 1 + 1) with ((lo + hi) / 2) by lia.
Qed.

End SearchFacts.

(** ** The quality search *)

(** The iteration count a lossy search returns is the number of its encoder
    calls. *)
Lemma iterations_count_calls
    (save : Image -> string -> save_params -> bytes) (img : Image)
    (out_fmt : string) (target_kb q_min q_max : Z)
    (best_b : bytes) (best_q iterations : Z) (status : string)
    (log : list save_call) :
  is_lossy out_fmt = true ->
  find_best_quality_lossy save img out_fmt target_kb q_min q_max []
  = (Returns (best_b, best_q, iterations, status), log) ->
  iterations = Z.of_nat (length log).
Proof.
  intros Hlossy Hrun.
  destruct (search_cases save img out_fmt target_kb Hlossy q_min q_max)
    as [[_ H] | [(_ & _ & H) | (_ & _ & mids & b & q & it & Hloop & H)]];
    rewrite H in Hrun; inversion Hrun; subst; try reflexivity.
  apply run_iterations in Hloop. simpl. rewrite length_map. lia.
Qed.

(** C5: when the encode at [q_max] fits the budget, the search returns the
    [q_max] bytes with quality [q_max], status [already_ok_at_qmax] and
    iteration count 1, after exactly one encode call. *)
Theorem already_ok_at_qmax_one_encode
    (save : Image -> string -> save_params -> bytes) (img : Image)
    (out_fmt : string) (target_kb q_min q_max : Z) :
  is_lossy out_fmt = true ->
  (size save img out_fmt q_max <= inject_Z target_kb)%Q ->
  find_best_quality_lossy save img out_fmt target_kb q_min q_max []
  = (Returns (encoded save img out_fmt q_max, q_max, 1, "already_ok_at_qmax"),
     [the_call img out_fmt q_max]).
Proof.
  intros Hlossy Hfit. apply float_le_int_true in Hfit.
  destruct (search_cases save img out_fmt target_kb Hlossy q_min q_max)
    as [[_ Hrun] | [(Hmax & _) | (Hmax & _)]]; [exact Hrun | congruence ..].
Qed.

Lemma already_ok_at_qmax_one_encode_witness :
  is_lossy "jpg" = true
  /\ (size (sized_save (fun q => q)) sample_img "jpg" 3 <= inject_Z 5)%Q
  /\ find_best_quality_lossy (sized_save (fun q => q)) sample_img "jpg" 5 1 3 []
     = (Returns (encoded (sized_save (fun q => q)) sample_img "jpg" 3, 3, 1,
                 "already_ok_at_qmax"),
        [the_call sample_img "jpg" 3]).
Proof.
  assert (H1 : is_lossy "jpg" = true) by reflexivity.
  assert (H2 : (size (sized_save (fun q => q)) sample_img "jpg" 3 <= inject_Z 5)%Q)
    by (apply Qle_bool_iff; vm_compute; reflexivity).
  split; [exact H1 |]. split; [exact H2 |].
  exact (already_ok_at_qmax_one_encode (sized_save (fun q => q)) sample_img
           "jpg" 5 1 3 H1 H2).
Defined.

(** C6: when the encodes at [q_max] and at [q_min] both exceed the budget,
    the search returns normally with the [q_min] bytes, quality [q_min],
    status [no_solution_within_bounds] and iteration count 2, and the two
    probes are its only encoder calls. *)
Theorem no_solution_two_encodes
    (save : Image -> string -> save_params -> bytes) (img : Image)
    (out_fmt : string) (target_kb q_min q_max : Z) :
  is_lossy out_fmt = true ->
  (inject_Z target_kb < size save img out_fmt q_max)%Q ->
  (inject_Z target_kb < size save img out_fmt q_min)%Q ->
  find_best_quality_lossy save img out_fmt target_kb q_min q_max []
  = (Returns (encoded save img out_fmt q_min, q_min, 2,
              "no_solution_within_bounds"),
     [the_call img out_fmt q_max; the_call img out_fmt q_min]).
Proof.
  intros Hlossy Hmax Hmin.
  apply float_le_int_false in Hmax. apply float_le_int_false in Hmin.
  destruct (search_cases save img out_fmt target_kb Hlossy q_min q_max)
    as [[H _] | [(_ & _ & Hrun) | (_ & H & _)]];
    [congruence | exact Hrun | congruence].
Qed.

Lemma no_solution_two_encodes_witness :
  is_lossy "webp" = true
  /\ (inject_Z 0 < size (sized_save (fun q => q)) sample_img "webp" 3)%Q
  /\ (inject_Z 0 < size (sized_save (fun q => q)) sample_img "webp" 1)%Q
  /\ find_best_quality_lossy (sized_save (fun q => q)) sample_img "webp" 0 1 3 []
     = (Returns (encoded (sized_save (fun q => q)) sample_img "webp" 1, 1, 2,
                 "no_solution_within_bounds"),
        [the_call sample_img "webp" 3; the_call sample_img "webp" 1]).
Proof.
  assert (H1 : is_lossy "webp" = true) by reflexivity.
  assert (H2 : (inject_Z 0 < size (sized_save (fun q => q)) sample_img "webp" 3)%Q)
    by (apply float_le_int_false; vm_compute; reflexivity).
  assert (H3 : (inject_Z 0 < size (sized_save (fun q => q)) sample_img "webp" 1)%Q)
    by (apply float_le_int_false; vm_compute; reflexivity).
  repeat (split; [assumption |]).
  exact (no_solution_two_encodes (sized_save (fun q => q)) sample_img
           "webp" 0 1 3 H1 H2 H3).
Defined.

(** C9: whenever the search returns with status [ok] or
    [already_ok_at_qmax], the returned bytes are the encoder's output at the
    returned quality and their size is within the budget; no assumption on
    how the size varies with the quality. *)
Theorem returned_bytes_fit
    (save : Image -> string -> save_params -> bytes) (img : Image)
    (out_fmt : string) (target_kb q_min q_max : Z)
    (best_b : bytes) (best_q iterations : Z) (status : string)
    (log : list save_call) :
  is_lossy out_fmt = true ->
  q_min <= q_max ->
  find_best_quality_lossy save img out_fmt target_kb q_min q_max []
  = (Returns (best_b, best_q, iterations, status), log) ->
  status = "ok" \/ status = "already_ok_at_qmax" ->
  best_b = encoded save img out_fmt best_q
  /\ (size_kb best_b <= inject_Z target_kb)%Q.
Proof.
  intros Hlossy _ Hrun Hst.
  destruct (search_cases save img out_fmt target_kb Hlossy q_min q_max)
    as [[Hfit H] | [(_ & _ & H) | (_ & Hfit & mids & b & q & it & Hloop & H)]];
    rewrite H in Hrun; inversion Hrun; subst.
  - split; [reflexivity |]. now apply float_le_int_true.
  - destruct Hst; discriminate.
  - destruct (run_best _ _ _ _ _ _ _ _ _ _ _ _ _ Hloop) as [[-> ->] | (-> & Hq & _)];
      (split; [reflexivity |]); now apply float_le_int_true.
Qed.

Lemma returned_bytes_fit_witness :
  is_lossy "jpg" = true
  /\ 1 <= 3
  /\ find_best_quality_lossy (sized_save (fun q => q)) sample_img "jpg" 2 1 3 []
     = (Returns (replicate 2048 "000"%byte, 2, 4, "ok"),
        map (the_call sample_img "jpg") [3; 1; 2; 3])
  /\ replicate 2048 "000"%byte
     = encoded (sized_save (fun q => q)) sample_img "jpg" 2
  /\ (size_kb (replicate 2048 "000"%byte) <= inject_Z 2)%Q.
Proof.
  assert (H1 : is_lossy "jpg" = true) by reflexivity.
  assert (H2 : 1 <= 3) by lia.
  assert (H3 : find_best_quality_lossy (sized_save (fun q => q)) sample_img
                 "jpg" 2 1 3 []
               = (Returns (replicate 2048 "000"%byte, 2, 4, "ok"),
                  map (the_call sample_img "jpg") [3; 1; 2; 3]))
    by (vm_compute; reflexivity).
  repeat (split; [assumption |]).
  exact (returned_bytes_fit (sized_save (fun q => q)) sample_img "jpg" 2 1 3
           (replicate 2048 "000"%byte) 2 4 "ok"
           (map (the_call sample_img "jpg") [3; 1; 2; 3]) H1 H2 H3
           (or_introl eq_refl)).
Defined.

(** C1, as stated, fails when no quality within the bounds fits: with a
    constant (hence non-decreasing) size of 2 KB and a budget of 1 KB the
    search returns quality 25, whose size exceeds the budget. *)
Lemma highest_quality_counterexample :
  25 <= 95
  /\ (forall q q', q <= q' ->
        (size (fixed_save 2048) sample_img "jpg" q
         <= size (fixed_save 2048) sample_img "jpg" q')%Q)
  /\ fst (find_best_quality_lossy (fixed_save 2048) sample_img "jpg" 1 25 95 [])
     = Returns (encoded (fixed_save 2048) sample_img "jpg" 25, 25, 2,
                "no_solution_within_bounds")
  /\ ~ (size (fixed_save 2048) sample_img "jpg" 25 <= inject_Z 1)%Q.
Proof.
  split; [lia |]. split; [intros q q' _; apply Qle_refl |].
  split; [vm_compute; reflexivity |].
  intros H. apply Qle_bool_iff in H. vm_compute in H. discriminate.
Qed.

(** C1, amended: with a size that is non-decreasing over the bounds, the
    search returns; when the size at [q_min] fits the budget, the returned
    quality [q] lies within the bounds, fits, is [q_max] or has a successor
    that does not fit, and no quality within the bounds that fits is higher;
    when even [q_min] exceeds the budget, the search returns [q_min] with
    status [no_solution_within_bounds]. *)
Theorem search_highest_fitting_quality
    (save : Image -> string -> save_params -> bytes) (img : Image)
    (out_fmt : string) (target_kb q_min q_max : Z) :
  is_lossy out_fmt = true ->
  q_min <= q_max ->
  (forall q q', q_min <= q -> q <= q' -> q' <= q_max ->
     (size save img out_fmt q <= size save img out_fmt q')%Q) ->
  exists best_b best_q iterations status log,
    find_best_quality_lossy save img out_fmt target_kb q_min q_max []
    = (Returns (best_b, best_q, iterations, status), log)
    /\ ((size save img out_fmt q_min <= inject_Z target_kb)%Q ->
        q_min <= best_q <= q_max
        /\ (size save img out_fmt best_q <= inject_Z target_kb)%Q
        /\ (best_q = q_max
            \/ (inject_Z target_kb < size save img out_fmt (best_q + 1))%Q)
        /\ forall q, q_min <= q <= q_max ->
             (size save img out_fmt q <= inject_Z target_kb)%Q -> q <= best_q)
    /\ ((inject_Z target_kb < size save img out_fmt q_min)%Q ->
        best_q = q_min /\ status = "no_solution_within_bounds").
Proof.
  intros Hlossy Hbounds Hmono.
  assert (Hhigh : forall best_q,
            q_min <= best_q <= q_max ->
            best_q = q_max
            \/ (inject_Z target_kb < size save img out_fmt (best_q + 1))%Q ->
            forall q, q_min <= q <= q_max ->
              (size save img out_fmt q <= inject_Z target_kb)%Q -> q <= best_q).
  { intros best_q Hin [-> | Hnext] q Hq Hfit; [lia |].
    destruct (Z_le_gt_dec q best_q) as [| Hgt]; [assumption | exfalso].
    apply (Qlt_not_le _ _ Hnext).
    eapply Qle_trans; [| exact Hfit]. apply Hmono; lia. }
  destruct (search_cases save img out_fmt target_kb Hlossy q_min q_max)
    as [[Hmax H] | [(Hmax & Hmin & H) | (Hmax & Hmin & mids & b & q & it & Hloop & H)]];
    rewrite H; do 5 eexists; (split; [reflexivity |]).
  - apply float_le_int_true in Hmax. split.
    + intros _. split; [lia |]. split; [exact Hmax |]. split; [now left |].
      apply Hhigh; [lia | now left].
    + intros Hbig. exfalso. apply (Qlt_not_le _ _ Hbig).
      eapply Qle_trans; [| exact Hmax]. apply Hmono; lia.
  - apply float_le_int_false in Hmin. split; [| now intros _].
    intros Hfit. exfalso. exact (Qlt_not_le _ _ Hmin Hfit).
  - destruct (run_highest save img out_fmt target_kb q_min q_max
                _ _ _ _ _ _ _ _ _ Hloop Hmin)
      as (Hfit & Hin & Hnext); auto; try lia.
    split.
    + intros _. split; [exact Hin |].
      split; [now apply float_le_int_true |].
      assert (Hnext' : q = q_max
                \/ (inject_Z target_kb < size save img out_fmt (q + 1))%Q).
      { destruct Hnext as [-> | Hn]; [now left | right].
        now apply float_le_int_false. }
      split; [exact Hnext' |]. now apply Hhigh.
    + intros Hbig. exfalso. apply float_le_int_true in Hmin.
      exact (Qlt_not_le _ _ Hbig Hmin).
Qed.

Lemma search_highest_fitting_quality_witness :
  is_lossy "jpg" = true
  /\ 25 <= 95
  /\ exists best_b best_q iterations status log,
       find_best_quality_lossy (sized_save (step_kb 60)) sample_img "jpg" 0 25 95 []
       = (Returns (best_b, best_q, iterations, status), log)
       /\ ((size (sized_save (step_kb 60)) sample_img "jpg" 25 <= inject_Z 0)%Q ->
           25 <= best_q <= 95
           /\ (size (sized_save (step_kb 60)) sample_img "jpg" best_q
               <= inject_Z 0)%Q
           /\ (best_q = 95
               \/ (inject_Z 0
                   < size (sized_save (step_kb 60)) sample_img "jpg" (best_q + 1))%Q)
           /\ forall q, 25 <= q <= 95 ->
                (size (sized_save (step_kb 60)) sample_img "jpg" q <= inject_Z 0)%Q ->
                q <= best_q)
       /\ ((inject_Z 0 < size (sized_save (step_kb 60)) sample_img "jpg" 25)%Q ->
           best_q = 25 /\ status = "no_solution_within_bounds").
Proof.
  assert (H1 : is_lossy "jpg" = true) by reflexivity.
  assert (H2 : 25 <= 95) by lia.
  assert (H3 : forall q q', 25 <= q -> q <= q' -> q' <= 95 ->
            (size (sized_save (step_kb 60)) sample_img "jpg" q
             <= size (sized_save (step_kb 60)) sample_img "jpg" q')%Q).
  { intros q q' _ Hq _. apply size_kb_mono.
    change (length (replicate (Z.to_nat (1024 * step_kb 60 q)) "000"%byte)
            <= length (replicate (Z.to_nat (1024 * step_kb 60 q')) "000"%byte))%nat.
    rewrite !length_replicate. unfold step_kb.
    destruct (Z.leb_spec q 60), (Z.leb_spec q' 60); lia. }
  repeat (split; [assumption |]).
  exact (search_highest_fitting_quality (sized_save (step_kb 60)) sample_img
           "jpg" 0 25 95 H1 H2 H3).
Defined.

(** C2, as stated, fails: with bounds 0 and 1 a search makes 4 encode calls,
    more than [2 + ceil(log2 2) = 3]; with the default bounds 25 and 95 a
    search in which every quality but 95 fits makes 9 encode calls, 7 of them
    in the bisection. *)
Lemma encode_calls_counterexample :
  (0 <= 1
   /\ ~ Z.of_nat (length (snd (find_best_quality_lossy
                                (sized_save (step_kb 0)) sample_img "jpg" 0 0 1 [])))
        <= 2 + Z.log2_up (1 - 0 + 1))
  /\ (25 <= 95
      /\ ~ Z.of_nat (length (snd (find_best_quality_lossy
                                   (sized_save (step_kb 94)) sample_img "jpg"
                                   0 25 95 [])))
           <= 8).
Proof.
  split; (split; [lia |]); intros H; vm_compute in H; apply H; reflexivity.
Qed.

(** C2, amended: one quality search makes at most
    [2 + ceil(log2(q_max - q_min + 2))] encode calls; for the default bounds
    25 and 95 that is at most 7 calls after the two probes, 9 in total. *)
Theorem encode_calls_bound
    (save : Image -> string -> save_params -> bytes) (img : Image)
    (out_fmt : string) (target_kb q_min q_max : Z) :
  is_lossy out_fmt = true ->
  q_min <= q_max ->
  let calls :=
    Z.of_nat (length (snd (find_best_quality_lossy save img out_fmt target_kb
                                                   q_min q_max []))) in
  calls <= 2 + Z.log2_up (q_max - q_min + 2)
  /\ (q_min = 25 -> q_max = 95 -> calls - 2 <= 7 /\ calls <= 9).
Proof.
  intros Hlossy Hbounds calls.
  assert (Hgen : calls <= 2 + Z.log2_up (q_max - q_min + 2)).
  { subst calls.
    pose proof (Z.log2_up_nonneg (q_max - q_min + 2)) as Hnn.
    destruct (search_cases save img out_fmt target_kb Hlossy q_min q_max)
      as [[_ H] | [(_ & _ & H) | (_ & _ & mids & b & q & it & Hloop & H)]];
      rewrite H; simpl snd.
    - simpl. lia.
    - simpl. lia.
    - apply run_length_bound in Hloop.
      simpl. rewrite length_map. lia. }
  split; [exact Hgen |]. intros -> ->.
  change (Z.log2_up (95 - 25 + 2)) with 7 in Hgen. lia.
Qed.

Lemma encode_calls_bound_witness :
  is_lossy "jpg" = true
  /\ 25 <= 95
  /\ Z.of_nat (length (snd (find_best_quality_lossy
                             (sized_save (step_kb 94)) sample_img "jpg" 0 25 95 [])))
     <= 2 + Z.log2_up (95 - 25 + 2).
Proof.
  assert (H1 : is_lossy "jpg" = true) by reflexivity.
  assert (H2 : 25 <= 95) by lia.
  repeat (split; [assumption |]).
  exact (proj1 (encode_calls_bound (sized_save (step_kb 94)) sample_img "jpg"
                  0 25 95 H1 H2)).
Defined.




(** ** Rounding to two decimals *)



(** ** The compression policy *)

(** The one encoder call of the png path. *)
Lemma encode_png (save : Image -> string -> save_params -> bytes)
    (img : Image) (log : list save_call) :
  encode_to_bytes save img "png" None log
  = (Returns (save img "PNG" (mkParams None (Some true) (Some 9))),
     log ++ [mkCall img "PNG" (mkParams None (Some true) (Some 9))]).
Proof. reflexivity. Qed.

(** What the png path does: one encode, no quality, iteration count 0, the
    rounded size as [final_kb], and a status decided on that rounded size. *)
Lemma compress_png_mvp_result (save : Image -> string -> save_params -> bytes)
    (img : Image) (target_kb : Z) :
  let out := save img "PNG" (mkParams None (Some true) (Some 9)) in
  exists meta,
    compress_png_mvp save img target_kb []
    = (Returns (out, meta), [mkCall img "PNG" (mkParams None (Some true) (Some 9))])
    /\ meta !! "status"
       = Some (PyStr (if float_le_int (round2 (size_kb out)) target_kb
                      then "ok" else "png_over_target"))
    /\ meta !! "quality" = Some PyNone
    /\ meta !! "iterations" = Some (PyInt 0)
    /\ meta !! "final_kb" = Some (PyFloat (round2 (size_kb out))).
Proof.
  intros out. eexists. split; [reflexivity |].
  repeat split; reflexivity.
Qed.

(** C4 at a 1025-byte png with a 1 KB budget: one encode call, iteration
    count 0 and no quality, but the status is [ok] although the encoded size
    exceeds the budget; the status is decided on the size rounded to two
    decimals. *)
Theorem png_over_budget_reported_ok :
  exists out meta,
    compress (fixed_save 1025) sample_img
             (mkArgs "in.png" "png" 1 "./output" "#ffffff" 25 95) []
    = (Returns (out, meta),
       [mkCall sample_img "PNG" (mkParams None (Some true) (Some 9))])
    /\ meta !! "quality" = Some PyNone
    /\ meta !! "iterations" = Some (PyInt 0)
    /\ meta !! "status" = Some (PyStr "ok")
    /\ (inject_Z 1 < size_kb out)%Q.
Proof.
  do 2 eexists. split; [reflexivity |].
  repeat split; vm_compute; reflexivity.
Qed.

(** [compress] returns for the three formats of the command line. *)
Lemma compress_returns (save : Image -> string -> save_params -> bytes)
    (img : Image) (args : Namespace) :
  is_lossy (out_fmt args) = true \/ out_fmt args = "png" ->
  exists out meta log, compress save img args [] = (Returns (out, meta), log).
Proof.
  intros [Hlossy | Hpng]; unfold compress.
  - rewrite Hlossy. unfold mbind, st_bind, St.bind.
    destruct (search_cases save img (out_fmt args) (target_kb args) Hlossy
                (q_min args) (q_max args))
      as [[_ H] | [(_ & _ & H) | (_ & _ & mids & b & q & it & _ & H)]];
      rewrite H; do 3 eexists; reflexivity.
  - rewrite Hpng. simpl.
    destruct (compress_png_mvp_result save img (target_kb args)) as (meta & H & _).
    rewrite H. do 3 eexists; reflexivity.
Qed.



(** C8 at a 1025-byte png with a 1 KB budget: [final_kb] is the measured
    size, 1025/1024 KB, rounded to two decimals, but the rounding is not kept
    to the result record: the rounded value, 1.00, also decides the status,
    which is [ok] although the measured size fails the budget test. *)
Theorem png_rounding_decides_status :
  exists out meta,
    compress (fixed_save 1025) sample_img
             (mkArgs "in.png" "png" 1 "./output" "#ffffff" 25 95) []
    = (Returns (out, meta),
       [mkCall sample_img "PNG" (mkParams None (Some true) (Some 9))])
    /\ (size_kb out == 1025 # 1024)%Q
    /\ meta !! "final_kb" = Some (PyFloat (round2 (size_kb out)))
    /\ (round2 (size_kb out) == 1)%Q
    /\ float_le_int (size_kb out) 1 = false
    /\ float_le_int (round2 (size_kb out)) 1 = true
    /\ meta !! "status" = Some (PyStr "ok").
Proof.
  do 2 eexists. split; [reflexivity |].
  repeat split; vm_compute; reflexivity.
Qed.

(** ** Normalisation *)

Lemma bind_returns {Σ A B : Type} (m : St.M Σ A) (k : A -> St.M Σ B)
    (σ σ' : Σ) (a : A) :
  m σ = (Returns a, σ') -> (m ≫= k) σ = k a σ'.
Proof. intros H. unfold mbind, st_bind, St.bind. now rewrite H. Qed.

Lemma bind_raises {Σ A B : Type} (m : St.M Σ A) (k : A -> St.M Σ B)
    (σ σ' : Σ) (e : exn) :
  m σ = (Raises e, σ') -> (m ≫= k) σ = (Raises e, σ').
Proof. intros H. unfold mbind, st_bind, St.bind. now rewrite H. Qed.

Lemma deref_run (σ : store) (r : ref) (im : Image) :
  σ !! r = Some im -> deref r σ = (Returns im, σ).
Proof.
  intros H. unfold deref. now rewrite (list_lookup_total_correct _ _ _ H).
Qed.

Lemma convert_rgba_run (σ : store) (r : ref) (im : Image) :
  σ !! r = Some im ->
  PIL.convert r "RGBA" σ = (Returns (length σ), σ ++ [PIL.rgba_image im]).
Proof.
  intros H. unfold PIL.convert.
  rewrite (bind_returns _ _ _ _ _ (deref_run _ _ _ H)). reflexivity.
Qed.

Lemma convert_rgb_run (σ : store) (r : ref) (im : Image) :
  σ !! r = Some im ->
  PIL.convert r "RGB" σ = (Returns (length σ), σ ++ [PIL.rgb_image im]).
Proof.
  intros H. unfold PIL.convert.
  rewrite (bind_returns _ _ _ _ _ (deref_run _ _ _ H)). reflexivity.
Qed.

Lemma alpha_composite_run (σ : store) (r1 r2 : ref) (im1 im2 : Image)
    (dst src : list rgba) :
  σ !! r1 = Some im1 -> σ !! r2 = Some im2 ->
  im_raster im1 = RasterRGBA dst -> im_raster im2 = RasterRGBA src ->
  im_width im1 = im_width im2 -> im_height im1 = im_height im2 ->
  PIL.alpha_composite r1 r2 σ
  = (Returns (length σ), σ ++ [PIL.composite_image im1 dst src]).
Proof.
  intros H1 H2 Hd Hs Hw Hh. unfold PIL.alpha_composite.
  rewrite (bind_returns _ _ _ _ _ (deref_run _ _ _ H1)).
  rewrite (bind_returns _ _ _ _ _ (deref_run _ _ _ H2)).
  rewrite Hd, Hs, Hw, Hh, !Z.eqb_refl. reflexivity.
Qed.

(** The flattening branch allocates five images and returns the last. *)
Lemma normalize_flatten (getrgb : string -> outcome rgb) (σ : store)
    (r : ref) (im : Image) (bg : string) (c : rgb) :
  σ !! r = Some im -> has_alpha im = true -> getrgb bg = Returns c ->
  let base := PIL.filled_image (im_width im, im_height im) c in
  normalize_for_output getrgb r "jpg" bg σ
  = (Returns (length σ + 4)%nat,
     σ ++ [base; PIL.rgba_image im; PIL.rgba_image base;
           PIL.composite_image (PIL.rgba_image base)
             (PIL.rgba_pixels base) (PIL.rgba_pixels im);
           flattened im c]).
Proof.
  intros Hr Halpha Hc base. unfold normalize_for_output.
  change (String.eqb "jpg" "jpg") with true. cbv iota.
  rewrite (bind_returns _ _ _ _ _ (deref_run _ _ _ Hr)). rewrite Halpha.
  rewrite (bind_returns (St.lift (getrgb bg)) _ σ σ c)
    by (unfold St.lift; now rewrite Hc).
  rewrite (bind_returns (PIL.new_rgb _ _) _ σ (σ ++ [base]) (length σ))
    by reflexivity.
  rewrite (bind_returns _ _ _ _ _
             (convert_rgba_run (σ ++ [base]) r im (lookup_app_l_Some _ _ _ _ Hr))).
  rewrite (bind_returns _ _ _ _ _
             (convert_rgba_run ((σ ++ [base]) ++ [PIL.rgba_image im]) (length σ) base
                (lookup_app_l_Some _ _ _ _ (list_lookup_middle σ [] base _ eq_refl)))).
  set (σ3 := ((σ ++ [base]) ++ [PIL.rgba_image im]) ++ [PIL.rgba_image base]).
  assert (H1 : σ3 !! length ((σ ++ [base]) ++ [PIL.rgba_image im])
               = Some (PIL.rgba_image base))
    by (apply list_lookup_middle; reflexivity).
  assert (H2 : σ3 !! length (σ ++ [base]) = Some (PIL.rgba_image im))
    by (apply lookup_app_l_Some, list_lookup_middle; reflexivity).
  rewrite (bind_returns _ _ _ _ _
             (alpha_composite_run σ3 _ _ _ _ _ _ H1 H2 eq_refl eq_refl
                eq_refl eq_refl)).
  rewrite (convert_rgb_run _ _ _ (list_lookup_middle σ3 [] _ _ eq_refl)).
  subst σ3. unfold flattened. fold base.
  rewrite !length_app. simpl length. rewrite <- !app_assoc. simpl.
  f_equal. f_equal. lia.
Qed.

(** *** The arithmetic of one channel *)

Lemma check_from_spec (p : N -> bool) (fuel : nat) (n m : N) :
  check_from p fuel n = true ->
  (n <= m < n + N.of_nat fuel)%N -> p m = true.
Proof.
  revert n. induction fuel as [| fuel IH]; intros n Hc Hm; [lia |].
  simpl in Hc. apply andb_true_iff in Hc. destruct Hc as [Hn Hrest].
  destruct (N.eq_dec m n) as [-> | Hne]; [exact Hn |].
  apply (IH (N.succ n)); [exact Hrest | lia].
Qed.

Lemma div255_round_close (n : N) :
  (n <= 65025)%N ->
  (div255_round n <= 255)%N
  /\ Z.abs (255 * Z.of_N (div255_round n) - Z.of_N n) <= 127.
Proof.
  intros Hn.
  assert (Htable :
    check_from (fun n => (div255_round n <=? 255)%N
                         && (Z.abs (255 * Z.of_N (div255_round n) - Z.of_N n)
                             <=? 127)%Z)
               (N.to_nat 65026) 0 = true) by (vm_compute; reflexivity).
  pose proof (check_from_spec _ _ _ n Htable ltac:(lia)) as H.
  apply andb_true_iff in H. destruct H as [H1 H2].
  split; [now apply N.leb_le | now apply Z.leb_le].
Qed.

Lemma u8_small (n : N) : (n <= 255)%N -> Byte.to_N (PIL.u8 n) = n.
Proof.
  intros Hn. unfold PIL.u8. rewrite N.mod_small by lia.
  destruct (Byte.of_N n) as [b |] eqn:Hb.
  - simpl. now apply Byte.to_of_N.
  - apply Byte.of_N_None_iff in Hb. lia.
Qed.

Lemma to_N_inj (x y : byte) : Byte.to_N x = Byte.to_N y -> x = y.
Proof.
  intros H. pose proof (Byte.of_to_N x) as Hx. rewrite H, Byte.of_to_N in Hx.
  congruence.
Qed.

(** Over an opaque destination the two coefficients are [128 * a] and
    [128 * (255 - a)], and a channel is the rounded blend. *)
Lemma composite_channel_blend (s d a : byte) :
  let sa := Byte.to_N a in
  let outa255 := (sa * 255 + 255 * (255 - sa))%N in
  let coef1 := (sa * 255 * 255 * N.shiftl 1 PIL.PRECISION_BITS / outa255)%N in
  let coef2 := (255 * N.shiftl 1 PIL.PRECISION_BITS - coef1)%N in
  rounds_blend (PIL.composite_channel coef1 coef2 s d) s d a.
Proof.
  intros sa outa255 coef1 coef2.
  pose proof (Byte.to_N_bounded a) as Ha. fold sa in Ha.
  pose proof (Byte.to_N_bounded s) as Hs.
  pose proof (Byte.to_N_bounded d) as Hd.
  assert (Hout : outa255 = 65025%N) by (subst outa255; lia).
  assert (Hc1 : coef1 = (sa * 128)%N).
  { subst coef1. rewrite Hout. change (N.shiftl 1 PIL.PRECISION_BITS) with 128%N.
    replace (sa * 255 * 255 * 128)%N with (sa * 128 * 65025)%N by lia.
    now apply N.div_mul. }
  assert (Hc2 : coef2 = ((255 - sa) * 128)%N).
  { subst coef2. rewrite Hc1.
    change (N.shiftl 1 PIL.PRECISION_BITS) with 128%N. lia. }
  unfold PIL.composite_channel. rewrite Hc1, Hc2.
  replace (Byte.to_N s * (sa * 128) + Byte.to_N d * ((255 - sa) * 128)
           + N.shiftl 128 PIL.PRECISION_BITS)%N
    with ((Byte.to_N s * sa + Byte.to_N d * (255 - sa))
          * N.shiftl 1 PIL.PRECISION_BITS
          + N.shiftl 128 PIL.PRECISION_BITS)%N
    by (change (N.shiftl 1 PIL.PRECISION_BITS) with 128%N; lia).
  fold (div255_round (Byte.to_N s * sa + Byte.to_N d * (255 - sa))).
  assert (Hn : (Byte.to_N s * sa + Byte.to_N d * (255 - sa) <= 65025)%N) by nia.
  destruct (div255_round_close _ Hn) as [Hle Hclose].
  unfold rounds_blend, blend255. rewrite (u8_small _ Hle). fold sa.
  replace (Z.of_N (Byte.to_N s) * Z.of_N sa
           + Z.of_N (Byte.to_N d) * (255 - Z.of_N sa))
    with (Z.of_N (Byte.to_N s * sa + Byte.to_N d * (255 - sa))) by lia.
  exact Hclose.
Qed.

Lemma rounds_blend_opaque (out s d : byte) :
  rounds_blend out s d PIL.opaque -> out = s.
Proof.
  unfold rounds_blend, blend255. change (Z.of_N (Byte.to_N PIL.opaque)) with 255.
  intros H. apply to_N_inj. lia.
Qed.

Lemma rounds_blend_transparent (d s : byte) : rounds_blend d s d "000"%byte.
Proof.
  unfold rounds_blend, blend255. change (Z.of_N (Byte.to_N "000"%byte)) with 0.
  lia.
Qed.

(** One pixel composited over an opaque background pixel. *)
Lemma composite_pixel_over_opaque (dr dg db sr sg sb sa : byte) :
  exists o_r o_g o_b o_a,
    PIL.composite_pixel (dr, dg, db, PIL.opaque) (sr, sg, sb, sa)
    = (o_r, o_g, o_b, o_a)
    /\ (sa = PIL.opaque -> (o_r, o_g, o_b) = (sr, sg, sb))
    /\ (sa = "000"%byte -> (o_r, o_g, o_b) = (dr, dg, db))
    /\ rounds_blend o_r sr dr sa
    /\ rounds_blend o_g sg dg sa
    /\ rounds_blend o_b sb db sa.
Proof.
  unfold PIL.composite_pixel.
  destruct (N.eqb (Byte.to_N sa) 0) eqn:Hz.
  - apply N.eqb_eq in Hz.
    assert (sa = "000"%byte) as -> by (apply to_N_inj; exact Hz).
    exists dr, dg, db, PIL.opaque. split; [reflexivity |].
    split; [discriminate |]. split; [reflexivity |].
    repeat split; apply rounds_blend_transparent.
  - apply N.eqb_neq in Hz.
    change (Byte.to_N PIL.opaque) with 255%N.
    pose proof (composite_channel_blend sr dr sa) as Hr.
    pose proof (composite_channel_blend sg dg sa) as Hg.
    pose proof (composite_channel_blend sb db sa) as Hb.
    cbv zeta in Hr, Hg, Hb.
    do 4 eexists. split; [reflexivity |].
    split; [| split; [| repeat split; assumption]].
    + intros ->. f_equal; [f_equal |]; eapply rounds_blend_opaque; eassumption.
    + intros ->. now contradiction Hz.
Qed.

(** *** The flattened image *)

Lemma lookup_map {A B : Type} (f : A -> B) (l : list A) (i : nat) :
  map f l !! i = f <$> (l !! i).
Proof.
  revert i. induction l as [| x l IH]; intros [| i]; simpl; auto.
Qed.

Lemma filled_rgba_pixels (size : Z * Z) (cr cg cb : byte) :
  PIL.rgba_pixels (PIL.filled_image size (cr, cg, cb))
  = replicate (Z.to_nat (fst size * snd size)) (cr, cg, cb, PIL.opaque).
Proof.
  unfold PIL.rgba_pixels, PIL.filled_image. simpl.
  induction (Z.to_nat (fst size * snd size)) as [| n IH]; simpl; congruence.
Qed.

(** C7: flattening a transparency-bearing image for jpg returns a new RGB
    image of the same dimensions; a fully opaque source pixel keeps its
    colour whatever the background colour, a fully transparent one becomes
    the background colour, and every channel is
    [src * alpha + background * (1 - alpha)] rounded to the nearest 8-bit
    value. *)
Theorem alpha_flattening
    (getrgb : string -> outcome rgb) (σ : store) (r : ref) (im : Image)
    (bg : string) (cr cg cb : byte) :
  σ !! r = Some im ->
  has_alpha im = true ->
  getrgb bg = Returns (cr, cg, cb) ->
  well_formed im ->
  exists r' σ' px,
    normalize_for_output getrgb r "jpg" bg σ = (Returns r', σ')
    /\ σ' !! r' = Some (mkImage (RasterRGB px) (im_width im) (im_height im) None)
    /\ length px = length (PIL.rgba_pixels im)
    /\ forall k sr sg sb sa,
         PIL.rgba_pixels im !! k = Some (sr, sg, sb, sa) ->
         exists o_r o_g o_b,
           px !! k = Some (o_r, o_g, o_b)
           /\ (sa = PIL.opaque -> (o_r, o_g, o_b) = (sr, sg, sb))
           /\ (sa = "000"%byte -> (o_r, o_g, o_b) = (cr, cg, cb))
           /\ rounds_blend o_r sr cr sa
           /\ rounds_blend o_g sg cg sa
           /\ rounds_blend o_b sb cb sa.
Proof.
  intros Hr Halpha Hc Hwf.
  pose proof (normalize_flatten getrgb σ r im bg (cr, cg, cb) Hr Halpha Hc) as Hrun.
  cbv zeta in Hrun.
  set (base := PIL.filled_image (im_width im, im_height im) (cr, cg, cb)) in *.
  set (px := zip_with PIL.composite_pixel (PIL.rgba_pixels base) (PIL.rgba_pixels im)).
  assert (Hbase : PIL.rgba_pixels base
                  = replicate (length (PIL.rgba_pixels im)) (cr, cg, cb, PIL.opaque)).
  { subst base. rewrite filled_rgba_pixels. simpl. now rewrite Hwf. }
  eexists (length σ + 4)%nat, _, (map (fun '(r0, g0, b0, _) => (r0, g0, b0)) px).
  split; [exact Hrun |]. split; [| split].
  - rewrite lookup_app_r by lia.
    replace (length σ + 4 - length σ)%nat with 4%nat by lia. reflexivity.
  - rewrite length_map. subst px.
    rewrite length_zip_with, Hbase, length_replicate. lia.
  - intros k sr sg sb sa Hk.
    destruct (composite_pixel_over_opaque cr cg cb sr sg sb sa)
      as (o_r & o_g & o_b & o_a & Hpx & Hop & Htr & Hbr & Hbg & Hbb).
    exists o_r, o_g, o_b. split; [| auto].
    rewrite lookup_map. subst px. rewrite lookup_zip_with, Hbase.
    rewrite lookup_replicate_2 by (eapply lookup_lt_Some; exact Hk).
    rewrite Hk. cbn -[PIL.composite_pixel]. now rewrite Hpx.
Qed.

Lemma alpha_flattening_witness :
  [sample_rgba] !! 0%nat = Some sample_rgba
  /\ has_alpha sample_rgba = true
  /\ sample_getrgb "#ffffff" = Returns ("255", "255", "255")%byte
  /\ well_formed sample_rgba
  /\ exists r' σ' px,
       normalize_for_output sample_getrgb 0%nat "jpg" "#ffffff" [sample_rgba]
       = (Returns r', σ')
       /\ σ' !! r' = Some (mkImage (RasterRGB px) 2 1 None)
       /\ length px = 2%nat.
Proof.
  assert (H1 : [sample_rgba] !! 0%nat = Some sample_rgba) by reflexivity.
  assert (H2 : has_alpha sample_rgba = true) by reflexivity.
  assert (H3 : sample_getrgb "#ffffff" = Returns ("255", "255", "255")%byte)
    by reflexivity.
  assert (H4 : well_formed sample_rgba) by reflexivity.
  repeat (split; [assumption |]).
  destruct (alpha_flattening sample_getrgb [sample_rgba] 0%nat sample_rgba
              "#ffffff" "255" "255" "255" H1 H2 H3 H4)
    as (r' & σ' & px & Hrun & Hout & Hlen & _).
  exists r', σ', px. auto.
Defined.

(** C10: for png and webp (and any format other than jpg) normalisation
    returns the very image it was given and allocates nothing; for every
    format the store only grows, so the original image and every other
    existing image is left as it was; and when a conversion is needed (jpg
    and a source with alpha or not in RGB mode) the image returned is a new
    object. *)
Theorem normalize_preserves_original
    (getrgb : string -> outcome rgb) (σ σ' : store) (r : ref) (im : Image)
    (out_fmt bg : string) (res : outcome ref) :
  σ !! r = Some im ->
  normalize_for_output getrgb r out_fmt bg σ = (res, σ') ->
  (out_fmt = "png" \/ out_fmt = "webp" -> res = Returns r /\ σ' = σ)
  /\ (exists new, σ' = σ ++ new)
  /\ (forall r0 im0, σ !! r0 = Some im0 -> σ' !! r0 = Some im0)
  /\ (forall r', res = Returns r' ->
        (r' = r /\ σ' = σ
         /\ (out_fmt <> "jpg" \/ has_alpha im = false /\ mode im = "RGB"))
        \/ (out_fmt = "jpg" /\ (has_alpha im = true \/ mode im <> "RGB")
            /\ σ !! r' = None /\ is_Some (σ' !! r'))).
Proof.
  intros Hr Hrun.
  assert (Hgrow : (exists new, σ' = σ ++ new) ->
                  forall r0 im0, σ !! r0 = Some im0 -> σ' !! r0 = Some im0).
  { intros [new ->] r0 im0 H0. now apply lookup_app_l_Some. }
  assert (Hsame : res = Returns r -> σ' = σ ->
                  out_fmt <> "jpg" \/ has_alpha im = false /\ mode im = "RGB" ->
                  (exists new, σ' = σ ++ new)
                  /\ (forall r0 im0, σ !! r0 = Some im0 -> σ' !! r0 = Some im0)
                  /\ (forall r', res = Returns r' ->
                        (r' = r /\ σ' = σ
                         /\ (out_fmt <> "jpg"
                             \/ has_alpha im = false /\ mode im = "RGB"))
                        \/ (out_fmt = "jpg"
                            /\ (has_alpha im = true \/ mode im <> "RGB")
                            /\ σ !! r' = None /\ is_Some (σ' !! r')))).
  { intros -> -> Hwhy. split; [exists []; now rewrite app_nil_r |].
    split; [auto |]. intros r' Hr'. inversion Hr'; subst. left. auto. }
  unfold normalize_for_output in Hrun.
  destruct (String.eqb_spec out_fmt "jpg") as [-> | Hfmt].
  - split; [intros [? | ?]; discriminate |].
    rewrite (bind_returns _ _ _ _ _ (deref_run _ _ _ Hr)) in Hrun.
    destruct (has_alpha im) eqn:Halpha.
    + destruct (getrgb bg) as [c | e] eqn:Hc.
      * pose proof (normalize_flatten getrgb σ r im bg c Hr Halpha Hc) as Hflat.
        cbv zeta in Hflat. unfold normalize_for_output in Hflat.
        change (String.eqb "jpg" "jpg") with true in Hflat. cbv iota in Hflat.
        rewrite (bind_returns _ _ _ _ _ (deref_run _ _ _ Hr)), Halpha in Hflat.
        rewrite Hc in Hflat. rewrite Hflat in Hrun.
        inversion Hrun; subst. clear Hrun Hflat.
        split; [eexists; reflexivity |].
        split; [apply Hgrow; eexists; reflexivity |].
        intros r' Hr'. inversion Hr'; subst. right.
        split; [reflexivity |]. split; [now left |]. split.
        -- apply lookup_ge_None. lia.
        -- apply lookup_lt_is_Some. rewrite length_app. simpl. lia.
      * rewrite (bind_raises (St.lift (Raises e)) _ σ σ e) in Hrun
          by reflexivity.
        inversion Hrun; subst.
        split; [exists []; now rewrite app_nil_r |].
        split; [auto |]. intros r' Hr'. discriminate.
    + destruct (String.eqb_spec (mode im) "RGB") as [Hmode | Hmode]; simpl in Hrun.
      * inversion Hrun; subst. apply Hsame; auto.
      * rewrite (convert_rgb_run _ _ _ Hr) in Hrun. inversion Hrun; subst.
        split; [eexists; reflexivity |].
        split; [apply Hgrow; eexists; reflexivity |].
        intros r' Hr'. inversion Hr'; subst. right.
        split; [reflexivity |]. split; [now right |]. split.
        -- apply lookup_ge_None. lia.
        -- apply lookup_lt_is_Some. rewrite length_app. simpl. lia.
  - inversion Hrun; subst. split; [auto |]. apply Hsame; auto.
Qed.

Lemma normalize_preserves_original_witness :
  [sample_rgba] !! 0%nat = Some sample_rgba
  /\ normalize_for_output sample_getrgb 0%nat "webp" "#ffffff" [sample_rgba]
     = (Returns 0%nat, [sample_rgba])
  /\ ("webp" = "png" \/ "webp" = "webp" ->
      Returns 0%nat = Returns 0%nat /\ [sample_rgba] = [sample_rgba]).
Proof.
  assert (H1 : [sample_rgba] !! 0%nat = Some sample_rgba) by reflexivity.
  assert (H2 : normalize_for_output sample_getrgb 0%nat "webp" "#ffffff"
                 [sample_rgba]
               = (Returns 0%nat, [sample_rgba])) by reflexivity.
  repeat (split; [assumption |]).
  exact (proj1 (normalize_preserves_original sample_getrgb [sample_rgba]
                  [sample_rgba] 0%nat sample_rgba "webp" "#ffffff"
                  (Returns 0%nat) H1 H2)).
Defined.

(** * Further properties of the code *)

(** ** The quality search beyond its contract *)

Lemma float_le_int_false_not (x : Q) (n : Z) :
  float_le_int x n = false -> ~ (x <= inject_Z n)%Q.
Proof. intros H. apply Qlt_not_le. now apply float_le_int_false. Qed.

Lemma bisect_run_empty_range save img out_fmt target_kb lo hi b q it mids r :
  bisect_run save img out_fmt target_kb lo hi b q it mids r ->
  lo > hi -> mids = [] /\ r = (b, q, it).
Proof. intros H Hgt. inversion H; subst; [auto | lia | lia]. Qed.

(** A lossy search always returns. *)
Lemma search_returns
    (save : Image -> string -> save_params -> bytes) (img : Image)
    (out_fmt : string) (target_kb q_min q_max : Z) :
  is_lossy out_fmt = true ->
  exists best_b best_q iterations status log,
    find_best_quality_lossy save img out_fmt target_kb q_min q_max []
    = (Returns (best_b, best_q, iterations, status), log).
Proof.
  intros Hlossy.
  destruct (search_cases save img out_fmt target_kb Hlossy q_min q_max)
    as [[_ H] | [(_ & _ & H) | (_ & _ & mids & b & q & it & _ & H)]];
    rewrite H; do 5 eexists; reflexivity.
Qed.

(** X1: whenever the search returns, the iteration count it returns is the
    number of encoder calls it made: 1, 2, or 2 plus the number of bisection
    steps. *)
Theorem iteration_count_is_encode_count
    (save : Image -> string -> save_params -> bytes) (img : Image)
    (out_fmt : string) (target_kb q_min q_max : Z)
    (best_b : bytes) (best_q iterations : Z) (status : string)
    (log : list save_call) :
  find_best_quality_lossy save img out_fmt target_kb q_min q_max []
  = (Returns (best_b, best_q, iterations, status), log) ->
  iterations = Z.of_nat (length log).
Proof.
  intros Hrun. destruct (is_lossy out_fmt) eqn:Hlossy.
  - eapply iterations_count_calls; eassumption.
  - destruct (String.eqb_spec out_fmt "png") as [-> | Hpng].
    + revert Hrun.
      unfold find_best_quality_lossy, S, mbind, st_bind, St.bind. simpl.
      rewrite float_gt_int_negb.
      destruct (float_le_int _ target_kb); intros H; inversion H; reflexivity.
    + exfalso. unfold is_lossy in Hlossy. apply orb_false_iff in Hlossy.
      destruct Hlossy as [Hjpg Hwebp].
      unfold find_best_quality_lossy, S, encode_to_bytes, fmt_map in Hrun.
      rewrite Hjpg, Hwebp in Hrun.
      destruct (String.eqb_spec out_fmt "png"); [contradiction |].
      discriminate.
Qed.

Lemma iteration_count_is_encode_count_witness :
  find_best_quality_lossy (sized_save (fun q => q)) sample_img "jpg" 2 1 3 []
  = (Returns (replicate 2048 "000"%byte, 2, 4, "ok"),
     map (the_call sample_img "jpg") [3; 1; 2; 3])
  /\ 4 = Z.of_nat (length (map (the_call sample_img "jpg") [3; 1; 2; 3])).
Proof.
  assert (H1 : find_best_quality_lossy (sized_save (fun q => q)) sample_img
                 "jpg" 2 1 3 []
               = (Returns (replicate 2048 "000"%byte, 2, 4, "ok"),
                  map (the_call sample_img "jpg") [3; 1; 2; 3]))
    by (vm_compute; reflexivity).
  split; [exact H1 |].
  exact (iteration_count_is_encode_count (sized_save (fun q => q)) sample_img
           "jpg" 2 1 3 _ 2 4 "ok" _ H1).
Defined.

(** X2: the status of a lossy search is decided by the two probes alone:
    [already_ok_at_qmax] exactly when the size at [q_max] fits the budget,
    [no_solution_within_bounds] exactly when the sizes at [q_max] and at
    [q_min] both exceed it, and [ok] exactly when [q_max] exceeds it and
    [q_min] fits. *)
Theorem status_decided_by_probes
    (save : Image -> string -> save_params -> bytes) (img : Image)
    (out_fmt : string) (target_kb q_min q_max : Z) :
  is_lossy out_fmt = true ->
  exists best_b best_q iterations status log,
    find_best_quality_lossy save img out_fmt target_kb q_min q_max []
    = (Returns (best_b, best_q, iterations, status), log)
    /\ (status = "already_ok_at_qmax"
        <-> (size save img out_fmt q_max <= inject_Z target_kb)%Q)
    /\ (status = "no_solution_within_bounds"
        <-> (inject_Z target_kb < size save img out_fmt q_max)%Q
            /\ (inject_Z target_kb < size save img out_fmt q_min)%Q)
    /\ (status = "ok"
        <-> (inject_Z target_kb < size save img out_fmt q_max)%Q
            /\ (size save img out_fmt q_min <= inject_Z target_kb)%Q).
Proof.
  intros Hlossy.
  destruct (search_cases save img out_fmt target_kb Hlossy q_min q_max)
    as [[Hmax H] | [(Hmax & Hmin & H) | (Hmax & Hmin & mids & b & q & it & _ & H)]];
    rewrite H; do 5 eexists; (split; [reflexivity |]).
  - apply float_le_int_true in Hmax.
    split; [tauto |].
    split; (split; [discriminate |]); intros [Hbig _];
      exfalso; exact (Qlt_not_le _ _ Hbig Hmax).
  - pose proof (float_le_int_false_not _ _ Hmax) as Hnmax.
    pose proof (float_le_int_false_not _ _ Hmin) as Hnmin.
    apply float_le_int_false in Hmax. apply float_le_int_false in Hmin.
    split; [split; [discriminate | tauto] |].
    split; [tauto |]. split; [discriminate | tauto].
  - pose proof (float_le_int_false_not _ _ Hmax) as Hnmax.
    apply float_le_int_false in Hmax. apply float_le_int_true in Hmin.
    split; [split; [discriminate | tauto] |].
    split; [| tauto]. split; [discriminate |].
    intros [_ Hbig]. exfalso. exact (Qlt_not_le _ _ Hbig Hmin).
Qed.

Lemma status_decided_by_probes_witness :
  is_lossy "jpg" = true
  /\ exists best_b best_q iterations status log,
       find_best_quality_lossy (sized_save (step_kb 60)) sample_img "jpg"
                               0 25 95 []
       = (Returns (best_b, best_q, iterations, status), log)
       /\ (status = "ok"
           <-> (inject_Z 0 < size (sized_save (step_kb 60)) sample_img "jpg" 95)%Q
               /\ (size (sized_save (step_kb 60)) sample_img "jpg" 25
                   <= inject_Z 0)%Q).
Proof.
  assert (H1 : is_lossy "jpg" = true) by reflexivity.
  split; [exact H1 |].
  destruct (status_decided_by_probes (sized_save (step_kb 60)) sample_img
              "jpg" 0 25 95 H1)
    as (b & q & it & st & log & Hrun & _ & _ & Hok).
  exists b, q, it, st, log. split; assumption.
Defined.

(** X3: with [q_min <= q_max] and no assumption on the encoder, a search
    that ends with status [ok] returns a quality [q] with
    [q_min <= q < q_max] whose size fits the budget while the size at
    [q + 1] does not. *)
Theorem ok_quality_is_a_boundary
    (save : Image -> string -> save_params -> bytes) (img : Image)
    (out_fmt : string) (target_kb q_min q_max : Z)
    (best_b : bytes) (best_q iterations : Z) (log : list save_call) :
  is_lossy out_fmt = true ->
  q_min <= q_max ->
  find_best_quality_lossy save img out_fmt target_kb q_min q_max []
  = (Returns (best_b, best_q, iterations, "ok"), log) ->
  q_min <= best_q < q_max
  /\ (size save img out_fmt best_q <= inject_Z target_kb)%Q
  /\ (inject_Z target_kb < size save img out_fmt (best_q + 1))%Q.
Proof.
  intros Hlossy Hbounds Hrun.
  destruct (search_cases save img out_fmt target_kb Hlossy q_min q_max)
    as [[_ H] | [(_ & _ & H) | (Hmax & Hmin & mids & b & q & it & Hloop & H)]];
    rewrite H in Hrun; inversion Hrun; subst.
  destruct (run_highest save img out_fmt target_kb q_min q_max
              _ _ _ _ _ _ _ _ _ Hloop Hmin)
    as (Hfit & Hin & Hnext); auto; try lia.
  assert (Hne : best_q <> q_max) by (intros ->; congruence).
  destruct Hnext as [? | Hnext]; [contradiction |].
  split; [lia |]. split.
  - now apply float_le_int_true.
  - now apply float_le_int_false.
Qed.

Lemma ok_quality_is_a_boundary_witness :
  is_lossy "jpg" = true
  /\ 1 <= 3
  /\ find_best_quality_lossy (sized_save (fun q => q)) sample_img "jpg" 2 1 3 []
     = (Returns (replicate 2048 "000"%byte, 2, 4, "ok"),
        map (the_call sample_img "jpg") [3; 1; 2; 3])
  /\ 1 <= 2 < 3
  /\ (size (sized_save (fun q => q)) sample_img "jpg" 2 <= inject_Z 2)%Q
  /\ (inject_Z 2 < size (sized_save (fun q => q)) sample_img "jpg" (2 + 1))%Q.
Proof.
  assert (H1 : is_lossy "jpg" = true) by reflexivity.
  assert (H2 : 1 <= 3) by lia.
  assert (H3 : find_best_quality_lossy (sized_save (fun q => q)) sample_img
                 "jpg" 2 1 3 []
               = (Returns (replicate 2048 "000"%byte, 2, 4, "ok"),
                  map (the_call sample_img "jpg") [3; 1; 2; 3]))
    by (vm_compute; reflexivity).
  repeat (split; [assumption |]).
  exact (ok_quality_is_a_boundary (sized_save (fun q => q)) sample_img "jpg"
           2 1 3 _ 2 4 _ H1 H2 H3).
Defined.

(** X4: with [q_min <= q_max], every encoder call of a lossy search is on
    the given image, in the Pillow format of [out_fmt], with a quality within
    the bounds as its only parameter; and the quality returned lies within
    the bounds and was encoded by one of these calls. *)
Theorem encoder_calls_within_bounds
    (save : Image -> string -> save_params -> bytes) (img : Image)
    (out_fmt : string) (target_kb q_min q_max : Z) :
  is_lossy out_fmt = true ->
  q_min <= q_max ->
  exists best_b best_q iterations status log,
    find_best_quality_lossy save img out_fmt target_kb q_min q_max []
    = (Returns (best_b, best_q, iterations, status), log)
    /\ q_min <= best_q <= q_max
    /\ best_q ∈ qualities log
    /\ forall c, c ∈ log ->
         call_img c = img
         /\ fmt_map out_fmt = Some (call_fmt c)
         /\ exists q, call_params c = mkParams (Some q) None None
                      /\ q_min <= q <= q_max.
Proof.
  intros Hlossy Hbounds.
  assert (Hcalls : forall qs c,
            Forall (fun q => q_min <= q <= q_max) qs ->
            c ∈ map (the_call img out_fmt) qs ->
            call_img c = img
            /\ fmt_map out_fmt = Some (call_fmt c)
            /\ exists q, call_params c = mkParams (Some q) None None
                         /\ q_min <= q <= q_max).
  { intros qs c Hqs Hc. apply list_elem_of_In, in_map_iff in Hc.
    destruct Hc as (q & <- & Hq). apply list_elem_of_In in Hq.
    rewrite Forall_forall in Hqs. specialize (Hqs _ Hq).
    split; [reflexivity |]. split.
    - destruct (is_lossy_fmt_map _ Hlossy) as [pil Hpil].
      unfold the_call. simpl. now rewrite Hpil.
    - exists q. now split. }
  destruct (search_cases save img out_fmt target_kb Hlossy q_min q_max)
    as [[_ H] | [(_ & _ & H) | (_ & Hmin & mids & b & q & it & Hloop & H)]];
    rewrite H; do 5 eexists; (split; [reflexivity |]).
  - split; [lia |]. split; [constructor |].
    intros c Hc. apply (Hcalls [q_max] c); [| exact Hc].
    repeat constructor; lia.
  - split; [lia |]. split; [repeat constructor |].
    intros c Hc. apply (Hcalls [q_max; q_min] c); [| exact Hc].
    repeat constructor; lia.
  - pose proof (run_mids_in_range _ _ _ _ _ _ _ _ _ _ _ Hloop) as Hmids.
    assert (Hq : q = q_min \/ q ∈ mids).
    { destruct (run_best _ _ _ _ _ _ _ _ _ _ _ _ _ Hloop) as [[_ ->] | (_ & _ & ?)];
        auto. }
    split; [| split].
    + destruct Hq as [-> | Hq]; [lia |].
      rewrite Forall_forall in Hmids. exact (Hmids _ Hq).
    + rewrite qualities_app, qualities_the_calls.
      destruct Hq as [-> | Hq].
      * apply elem_of_app. left. repeat constructor.
      * apply elem_of_app. now right.
    + intros c Hc. apply (Hcalls ([q_max; q_min] ++ mids) c).
      * repeat constructor; try lia. exact Hmids.
      * now rewrite map_app.
Qed.

Lemma encoder_calls_within_bounds_witness :
  is_lossy "jpg" = true
  /\ 25 <= 95
  /\ exists best_b best_q iterations status log,
       find_best_quality_lossy (sized_save (step_kb 60)) sample_img "jpg"
                               0 25 95 []
       = (Returns (best_b, best_q, iterations, status), log)
       /\ 25 <= best_q <= 95.
Proof.
  assert (H1 : is_lossy "jpg" = true) by reflexivity.
  assert (H2 : 25 <= 95) by lia.
  repeat (split; [assumption |]).
  destruct (encoder_calls_within_bounds (sized_save (step_kb 60)) sample_img
              "jpg" 0 25 95 H1 H2)
    as (b & q & it & st & log & Hrun & Hq & _).
  exists b, q, it, st, log. split; assumption.
Defined.

(** X5: with inverted bounds, [q_max < q_min], the loop body never runs: the
    search makes no encoder call beyond the two probes, and when [q_max]
    exceeds the budget and [q_min] fits it returns the [q_min] bytes with
    status [ok] and iteration count 2. *)
Theorem inverted_bounds_never_bisect
    (save : Image -> string -> save_params -> bytes) (img : Image)
    (out_fmt : string) (target_kb q_min q_max : Z) :
  is_lossy out_fmt = true ->
  q_max < q_min ->
  exists best_b best_q iterations status log,
    find_best_quality_lossy save img out_fmt target_kb q_min q_max []
    = (Returns (best_b, best_q, iterations, status), log)
    /\ (log = [the_call img out_fmt q_max]
        \/ log = [the_call img out_fmt q_max; the_call img out_fmt q_min])
    /\ (status = "ok" ->
        best_b = encoded save img out_fmt q_min /\ best_q = q_min
        /\ iterations = 2).
Proof.
  intros Hlossy Hinv.
  destruct (search_cases save img out_fmt target_kb Hlossy q_min q_max)
    as [[_ H] | [(_ & _ & H) | (_ & _ & mids & b & q & it & Hloop & H)]];
    rewrite H; do 5 eexists; (split; [reflexivity |]).
  - split; [now left | discriminate].
  - split; [now right | discriminate].
  - destruct (bisect_run_empty_range _ _ _ _ _ _ _ _ _ _ _ Hloop ltac:(lia))
      as [-> Hr]. inversion Hr; subst.
    split; [now right | auto].
Qed.

Lemma inverted_bounds_never_bisect_witness :
  is_lossy "jpg" = true
  /\ 25 < 95
  /\ find_best_quality_lossy (sized_save (fun q => 1 - step_kb 60 q))
                             sample_img "jpg" 0 95 25 []
     = (Returns ([], 95, 2, "ok"),
        [the_call sample_img "jpg" 25; the_call sample_img "jpg" 95])
  /\ [] = encoded (sized_save (fun q => 1 - step_kb 60 q)) sample_img "jpg" 95
  /\ 95 = 95 /\ 2 = 2.
Proof.
  assert (H1 : is_lossy "jpg" = true) by reflexivity.
  assert (H2 : 25 < 95) by lia.
  assert (H3 : find_best_quality_lossy (sized_save (fun q => 1 - step_kb 60 q))
                 sample_img "jpg" 0 95 25 []
               = (Returns ([], 95, 2, "ok"),
                  [the_call sample_img "jpg" 25; the_call sample_img "jpg" 95]))
    by (vm_compute; reflexivity).
  repeat (split; [assumption |]).
  destruct (inverted_bounds_never_bisect
              (sized_save (fun q => 1 - step_kb 60 q)) sample_img
              "jpg" 0 95 25 H1 H2)
    as (b & q & it & st & log & Hrun & _ & Hok).
  rewrite H3 in Hrun. inversion Hrun; subst. apply Hok. reflexivity.
Defined.

(** X6: with equal bounds the search never ends with status [ok]: it returns
    the one quality allowed, after one encode when it fits and after two
    encodes of that same quality when it does not. *)
Theorem equal_bounds_no_bisection
    (save : Image -> string -> save_params -> bytes) (img : Image)
    (out_fmt : string) (target_kb q : Z) :
  is_lossy out_fmt = true ->
  exists iterations status log,
    find_best_quality_lossy save img out_fmt target_kb q q []
    = (Returns (encoded save img out_fmt q, q, iterations, status), log)
    /\ ((status = "already_ok_at_qmax" /\ qualities log = [q])
        \/ (status = "no_solution_within_bounds" /\ qualities log = [q; q])).
Proof.
  intros Hlossy.
  destruct (search_cases save img out_fmt target_kb Hlossy q q)
    as [[_ H] | [(_ & _ & H) | (Hmax & Hmin & _)]];
    [| | congruence]; rewrite H; do 3 eexists; (split; [reflexivity |]).
  - left. split; reflexivity.
  - right. split; reflexivity.
Qed.

Lemma equal_bounds_no_bisection_witness :
  is_lossy "webp" = true
  /\ exists iterations status log,
       find_best_quality_lossy (fixed_save 2048) sample_img "webp" 1 80 80 []
       = (Returns (encoded (fixed_save 2048) sample_img "webp" 80, 80,
                   iterations, status), log)
       /\ ((status = "already_ok_at_qmax" /\ qualities log = [80])
           \/ (status = "no_solution_within_bounds"
               /\ qualities log = [80; 80])).
Proof.
  assert (H1 : is_lossy "webp" = true) by reflexivity.
  split; [exact H1 |].
  exact (equal_bounds_no_bisection (fixed_save 2048) sample_img "webp" 1 80 H1).
Defined.

(** X7: for an [out_fmt] that is not a key of [fmt_map], the search raises
    [KeyError] at its first probe, before any encoder call. *)
Theorem search_unknown_format_raises
    (save : Image -> string -> save_params -> bytes) (img : Image)
    (out_fmt : string) (target_kb q_min q_max : Z) :
  out_fmt <> "jpg" -> out_fmt <> "png" -> out_fmt <> "webp" ->
  find_best_quality_lossy save img out_fmt target_kb q_min q_max []
  = (Raises (KeyError out_fmt), []).
Proof.
  intros Hjpg Hpng Hwebp.
  unfold find_best_quality_lossy, S, encode_to_bytes, fmt_map.
  destruct (String.eqb_spec out_fmt "jpg"); [contradiction |].
  destruct (String.eqb_spec out_fmt "png"); [contradiction |].
  destruct (String.eqb_spec out_fmt "webp"); [contradiction |].
  reflexivity.
Qed.

Lemma search_unknown_format_raises_witness :
  "gif" <> "jpg" /\ "gif" <> "png" /\ "gif" <> "webp"
  /\ find_best_quality_lossy (fixed_save 2048) sample_img "gif" 1 25 95 []
     = (Raises (KeyError "gif"), []).
Proof.
  assert (H1 : "gif" <> "jpg") by discriminate.
  assert (H2 : "gif" <> "png") by discriminate.
  assert (H3 : "gif" <> "webp") by discriminate.
  repeat (split; [assumption |]).
  exact (search_unknown_format_raises (fixed_save 2048) sample_img "gif"
           1 25 95 H1 H2 H3).
Defined.

(** X8: called with [out_fmt = "png"], the search passes no quality to the
    encoder, so both probes encode the same bytes and the loop is never
    reached: one call and [already_ok_at_qmax] when the png fits, two
    identical calls and [no_solution_within_bounds] when it does not. *)
Theorem search_png_never_bisects
    (save : Image -> string -> save_params -> bytes) (img : Image)
    (target_kb q_min q_max : Z) :
  let out := save img "PNG" (mkParams None (Some true) (Some 9)) in
  let call := mkCall img "PNG" (mkParams None (Some true) (Some 9)) in
  find_best_quality_lossy save img "png" target_kb q_min q_max []
  = if float_le_int (size_kb out) target_kb
    then (Returns (out, q_max, 1, "already_ok_at_qmax"), [call])
    else (Returns (out, q_min, 2, "no_solution_within_bounds"), [call; call]).
Proof.
  intros out call.
  unfold find_best_quality_lossy, S, mbind, st_bind, St.bind. simpl.
  fold out. rewrite float_gt_int_negb.
  destruct (float_le_int (size_kb out) target_kb); reflexivity.
Qed.

(** X9: with a negative budget nothing fits: every lossy search makes exactly
    the two probes and returns the [q_min] bytes with status
    [no_solution_within_bounds]. *)
Theorem negative_budget_no_solution
    (save : Image -> string -> save_params -> bytes) (img : Image)
    (out_fmt : string) (target_kb q_min q_max : Z) :
  is_lossy out_fmt = true ->
  target_kb < 0 ->
  find_best_quality_lossy save img out_fmt target_kb q_min q_max []
  = (Returns (encoded save img out_fmt q_min, q_min, 2,
              "no_solution_within_bounds"),
     [the_call img out_fmt q_max; the_call img out_fmt q_min]).
Proof.
  intros Hlossy Hneg.
  assert (Hbig : forall q,
            float_le_int (size save img out_fmt q) target_kb = false).
  { intros q. unfold size. rewrite size_kb_le. apply Z.leb_gt. lia. }
  destruct (search_cases save img out_fmt target_kb Hlossy q_min q_max)
    as [[H _] | [(_ & _ & Hrun) | (_ & H & _)]];
    [| exact Hrun |]; rewrite Hbig in H; discriminate.
Qed.

Lemma negative_budget_no_solution_witness :
  is_lossy "jpg" = true
  /\ -1 < 0
  /\ find_best_quality_lossy (sized_save (step_kb 60)) sample_img "jpg"
                             (-1) 25 95 []
     = (Returns (encoded (sized_save (step_kb 60)) sample_img "jpg" 25, 25, 2,
                 "no_solution_within_bounds"),
        [the_call sample_img "jpg" 95; the_call sample_img "jpg" 25]).
Proof.
  assert (H1 : is_lossy "jpg" = true) by reflexivity.
  assert (H2 : -1 < 0) by lia.
  repeat (split; [assumption |]).
  exact (negative_budget_no_solution (sized_save (step_kb 60)) sample_img
           "jpg" (-1) 25 95 H1 H2).
Defined.

(** With a size that is non-decreasing over the bounds and fits at [q_min],
    the quality returned fits and no fitting quality within the bounds is
    higher. *)
Lemma search_returns_highest
    (save : Image -> string -> save_params -> bytes) (img : Image)
    (out_fmt : string) (target_kb q_min q_max : Z)
    (best_b : bytes) (best_q iterations : Z) (status : string)
    (log : list save_call) :
  is_lossy out_fmt = true ->
  q_min <= q_max ->
  (forall q q', q_min <= q -> q <= q' -> q' <= q_max ->
     (size save img out_fmt q <= size save img out_fmt q')%Q) ->
  (size save img out_fmt q_min <= inject_Z target_kb)%Q ->
  find_best_quality_lossy save img out_fmt target_kb q_min q_max []
  = (Returns (best_b, best_q, iterations, status), log) ->
  q_min <= best_q <= q_max
  /\ (size save img out_fmt best_q <= inject_Z target_kb)%Q
  /\ forall q, q_min <= q <= q_max ->
       (size save img out_fmt q <= inject_Z target_kb)%Q -> q <= best_q.
Proof.
  intros Hlossy Hbounds Hmono Hfitmin Hrun.
  destruct (search_cases save img out_fmt target_kb Hlossy q_min q_max)
    as [[Hmax H] | [(_ & Hmin & H) | (_ & Hmin & mids & b & q & it & Hloop & H)]];
    rewrite H in Hrun; inversion Hrun; subst.
  - apply float_le_int_true in Hmax. split; [lia |]. split; [exact Hmax |].
    intros; lia.
  - exfalso. exact (float_le_int_false_not _ _ Hmin Hfitmin).
  - destruct (run_highest save img out_fmt target_kb q_min q_max
                _ _ _ _ _ _ _ _ _ Hloop Hmin)
      as (Hfit & Hin & Hnext); auto; try lia.
    split; [exact Hin |]. split; [now apply float_le_int_true |].
    intros q Hq Hfitq. destruct Hnext as [-> | Hnext]; [lia |].
    destruct (Z_le_gt_dec q best_q) as [| Hgt]; [assumption | exfalso].
    apply (float_le_int_false_not _ _ Hnext).
    eapply Qle_trans; [| exact Hfitq]. apply Hmono; lia.
Qed.

(** X10: with a size that is non-decreasing over the bounds, a larger budget
    never lowers the quality chosen: if the size at [q_min] fits the budget
    [t1] and [t1 <= t2], the quality returned for [t2] is at least the one
    returned for [t1]. *)
Theorem larger_budget_no_lower_quality
    (save : Image -> string -> save_params -> bytes) (img : Image)
    (out_fmt : string) (t1 t2 q_min q_max : Z)
    (b1 b2 : bytes) (q1 q2 it1 it2 : Z) (st1 st2 : string)
    (log1 log2 : list save_call) :
  is_lossy out_fmt = true ->
  q_min <= q_max ->
  (forall q q', q_min <= q -> q <= q' -> q' <= q_max ->
     (size save img out_fmt q <= size save img out_fmt q')%Q) ->
  (size save img out_fmt q_min <= inject_Z t1)%Q ->
  t1 <= t2 ->
  find_best_quality_lossy save img out_fmt t1 q_min q_max []
  = (Returns (b1, q1, it1, st1), log1) ->
  find_best_quality_lossy save img out_fmt t2 q_min q_max []
  = (Returns (b2, q2, it2, st2), log2) ->
  q1 <= q2.
Proof.
  intros Hlossy Hbounds Hmono Hfit Ht Hrun1 Hrun2.
  assert (Hle : (inject_Z t1 <= inject_Z t2)%Q)
    by (rewrite <- Zle_Qle; exact Ht).
  destruct (search_returns_highest save img out_fmt t1 q_min q_max _ _ _ _ _
              Hlossy Hbounds Hmono Hfit Hrun1) as (Hin1 & Hfit1 & _).
  destruct (search_returns_highest save img out_fmt t2 q_min q_max _ _ _ _ _
              Hlossy Hbounds Hmono (Qle_trans _ _ _ Hfit Hle) Hrun2)
    as (_ & _ & Hmax2).
  apply Hmax2; [exact Hin1 |]. eapply Qle_trans; eassumption.
Qed.

Lemma larger_budget_no_lower_quality_witness :
  is_lossy "jpg" = true
  /\ 25 <= 95
  /\ (size (sized_save (step_kb 60)) sample_img "jpg" 25 <= inject_Z 0)%Q
  /\ 0 <= 1
  /\ fst (find_best_quality_lossy (sized_save (step_kb 60)) sample_img "jpg"
                                  0 25 95 [])
     = Returns ([], 60, 8, "ok")
  /\ fst (find_best_quality_lossy (sized_save (step_kb 60)) sample_img "jpg"
                                  1 25 95 [])
     = Returns (replicate 1024 "000"%byte, 95, 1, "already_ok_at_qmax")
  /\ 60 <= 95.
Proof.
  assert (H1 : is_lossy "jpg" = true) by reflexivity.
  assert (H2 : 25 <= 95) by lia.
  assert (H3 : forall q q', 25 <= q -> q <= q' -> q' <= 95 ->
            (size (sized_save (step_kb 60)) sample_img "jpg" q
             <= size (sized_save (step_kb 60)) sample_img "jpg" q')%Q).
  { intros q q' _ Hq _. apply size_kb_mono.
    change (length (replicate (Z.to_nat (1024 * step_kb 60 q)) "000"%byte)
            <= length (replicate (Z.to_nat (1024 * step_kb 60 q')) "000"%byte))%nat.
    rewrite !length_replicate. unfold step_kb.
    destruct (Z.leb_spec q 60), (Z.leb_spec q' 60); lia. }
  assert (H4 : (size (sized_save (step_kb 60)) sample_img "jpg" 25
                <= inject_Z 0)%Q) by (apply Qle_bool_iff; vm_compute; reflexivity).
  assert (H5 : 0 <= 1) by lia.
  assert (H6 : find_best_quality_lossy (sized_save (step_kb 60)) sample_img
                 "jpg" 0 25 95 []
               = (Returns ([], 60, 8, "ok"),
                  snd (find_best_quality_lossy (sized_save (step_kb 60))
                         sample_img "jpg" 0 25 95 [])))
    by (apply injective_projections; [vm_compute |]; reflexivity).
  assert (H7 : find_best_quality_lossy (sized_save (step_kb 60)) sample_img
                 "jpg" 1 25 95 []
               = (Returns (replicate 1024 "000"%byte, 95, 1,
                           "already_ok_at_qmax"),
                  snd (find_best_quality_lossy (sized_save (step_kb 60))
                         sample_img "jpg" 1 25 95 [])))
    by (apply injective_projections; [vm_compute |]; reflexivity).
  repeat (split; [assumption |]).
  split; [now rewrite H6 |]. split; [now rewrite H7 |].
  exact (larger_budget_no_lower_quality (sized_save (step_kb 60)) sample_img
           "jpg" 0 1 25 95 _ _ _ _ _ _ _ _ _ _ H1 H2 H3 H4 H5 H6 H7).
Defined.

(** ** The compression policy beyond its contract *)

(** X11: for a format other than jpg, webp and png, [compress] raises
    [ValueError] naming the format and makes no encoder call; and whenever
    [compress] returns, the format is one of the three and the [out_fmt]
    entry of [meta] is the format requested. *)
Theorem compress_unsupported_format
    (save : Image -> string -> save_params -> bytes) (img : Image)
    (args : Namespace) :
  (out_fmt args <> "jpg" -> out_fmt args <> "webp" -> out_fmt args <> "png" ->
   compress save img args []
   = (Raises (ValueError ("Unsupported out_fmt: " +:+ out_fmt args)), []))
  /\ forall out meta log,
       compress save img args [] = (Returns (out, meta), log) ->
       (out_fmt args = "jpg" \/ out_fmt args = "webp" \/ out_fmt args = "png")
       /\ meta !! "out_fmt" = Some (PyStr (out_fmt args)).
Proof.
  split.
  - intros Hjpg Hwebp Hpng. unfold compress, is_lossy.
    apply String.eqb_neq in Hjpg. apply String.eqb_neq in Hwebp.
    apply String.eqb_neq in Hpng. now rewrite Hjpg, Hwebp, Hpng.
  - intros out meta log Hrun. unfold compress in Hrun.
    destruct (is_lossy (out_fmt args)) eqn:Hlossy.
    + split; [destruct (is_lossy_cases _ Hlossy); auto |].
      unfold mbind, st_bind, St.bind in Hrun.
      destruct (find_best_quality_lossy save img (out_fmt args)
                  (target_kb args) (q_min args) (q_max args) [])
        as [[[[[b q] it] st] | e] log'];
        [| discriminate].
      inversion Hrun; subst. reflexivity.
    + destruct (String.eqb_spec (out_fmt args) "png") as [Hpng | Hpng];
        [| discriminate].
      split; [auto |]. rewrite Hpng.
      unfold compress_png_mvp in Hrun.
      rewrite (bind_returns _ _ _ _ _ (encode_png save img [])) in Hrun.
      inversion Hrun; subst. reflexivity.
Qed.

Lemma compress_unsupported_format_witness :
  "gif" <> "jpg" /\ "gif" <> "webp" /\ "gif" <> "png"
  /\ compress (fixed_save 2048) sample_img
              (mkArgs "in.png" "gif" 1 "./output" "#ffffff" 25 95) []
     = (Raises (ValueError "Unsupported out_fmt: gif"), []).
Proof.
  assert (H1 : "gif" <> "jpg") by discriminate.
  assert (H2 : "gif" <> "webp") by discriminate.
  assert (H3 : "gif" <> "png") by discriminate.
  repeat (split; [assumption |]).
  exact (proj1 (compress_unsupported_format (fixed_save 2048) sample_img
                  (mkArgs "in.png" "gif" 1 "./output" "#ffffff" 25 95))
           H1 H2 H3).
Defined.

(** X12: on the lossy path [compress] returns the bytes of the search, and
    its [meta] reports the search's status and quality, the number of encoder
    calls made as [iterations], the image's width and height, and the
    request's format, budget and bounds; it has no [note]. *)
Theorem compress_lossy_reports_search
    (save : Image -> string -> save_params -> bytes) (img : Image)
    (args : Namespace) :
  is_lossy (out_fmt args) = true ->
  exists best_b best_q iterations status log meta,
    find_best_quality_lossy save img (out_fmt args) (target_kb args)
                            (q_min args) (q_max args) []
    = (Returns (best_b, best_q, iterations, status), log)
    /\ compress save img args [] = (Returns (best_b, meta), log)
    /\ meta !! "status" = Some (PyStr status)
    /\ meta !! "quality" = Some (PyInt best_q)
    /\ meta !! "iterations" = Some (PyInt (Z.of_nat (length log)))
    /\ meta !! "out_fmt" = Some (PyStr (out_fmt args))
    /\ meta !! "width" = Some (PyInt (im_width img))
    /\ meta !! "height" = Some (PyInt (im_height img))
    /\ meta !! "target_kb" = Some (PyInt (target_kb args))
    /\ meta !! "q_min" = Some (PyInt (q_min args))
    /\ meta !! "q_max" = Some (PyInt (q_max args))
    /\ meta !! "note" = None.
Proof.
  intros Hlossy.
  destruct (search_returns save img (out_fmt args) (target_kb args)
              (q_min args) (q_max args) Hlossy)
    as (b & q & it & st & log & Hrun).
  pose proof (iterations_count_calls _ _ _ _ _ _ _ _ _ _ _ Hlossy Hrun) as Hit.
  exists b, q, it, st, log. eexists. split; [exact Hrun |]. split.
  - unfold compress. rewrite Hlossy.
    rewrite (bind_returns _ _ _ _ _ Hrun). reflexivity.
  - rewrite <- Hit. repeat split; reflexivity.
Qed.

Lemma compress_lossy_reports_search_witness :
  is_lossy "jpg" = true
  /\ exists best_b meta log,
       compress (sized_save (step_kb 60)) sample_img
                (mkArgs "in.png" "jpg" 0 "./output" "#ffffff" 25 95) []
       = (Returns (best_b, meta), log)
       /\ meta !! "iterations" = Some (PyInt (Z.of_nat (length log)))
       /\ meta !! "out_fmt" = Some (PyStr "jpg").
Proof.
  assert (H1 : is_lossy "jpg" = true) by reflexivity.
  split; [exact H1 |].
  destruct (compress_lossy_reports_search (sized_save (step_kb 60)) sample_img
              (mkArgs "in.png" "jpg" 0 "./output" "#ffffff" 25 95) H1)
    as (b & q & it & st & log & meta & _ & Hrun & _ & _ & Hit & Hfmt & _).
  exists b, meta, log. repeat split; assumption.
Defined.

(** *** The budget test of the png path *)

Lemma inject_Z_succ (z : Z) : (inject_Z (z + 1) == inject_Z z + 1)%Q.
Proof. rewrite inject_Z_plus. reflexivity. Qed.

Lemma inject_Z_le_half (a b : Z) :
  (inject_Z a <= inject_Z b + (1 # 2))%Q -> a <= b.
Proof.
  intros H. destruct (Z_le_gt_dec a b) as [| Hgt]; [assumption | exfalso].
  assert (H' : (inject_Z (b + 1) <= inject_Z a)%Q)
    by (rewrite <- Zle_Qle; lia).
  rewrite inject_Z_succ in H'. lra.
Qed.

(** Rounding half to even stays at or below an even integer [m] exactly up
    to [m + 1/2]. *)
Lemma round_half_even_le (y : Q) (m : Z) :
  Z.even m = true ->
  round_half_even y <= m <-> (y <= inject_Z m + (1 # 2))%Q.
Proof.
  intros Hm. pose proof (Qfloor_le y) as Hlo. pose proof (Qlt_floor y) as Hhi.
  rewrite inject_Z_succ in Hhi. unfold round_half_even.
  destruct (Qcompare_spec (y - inject_Z (Qfloor y)) (1 # 2)) as [He | Hl | Hg].
  - assert (Hiff : Qfloor y <= m <-> (y <= inject_Z m + (1 # 2))%Q).
    { split; intros H.
      - rewrite Zle_Qle in H. lra.
      - apply inject_Z_le_half. lra. }
    destruct (Z.even (Qfloor y)) eqn:Hf; [exact Hiff |].
    rewrite <- Hiff. assert (Qfloor y <> m) by (intros Heq; congruence). lia.
  - split; intros H.
    + rewrite Zle_Qle in H. lra.
    + apply inject_Z_le_half. lra.
  - split; intros H.
    + rewrite Zle_Qle in H. rewrite inject_Z_succ in H. lra.
    + enough (Qfloor y < m) by lia.
      destruct (Z_lt_ge_dec (Qfloor y) m) as [| Hge]; [assumption | exfalso].
      assert (H' : (inject_Z m <= inject_Z (Qfloor y))%Q)
        by (rewrite <- Zle_Qle; lia).
      lra.
Qed.

(** The png budget test in bytes. *)
Lemma rounded_size_le (data : bytes) (n : Z) :
  float_le_int (round2 (size_kb data)) n
  = (Z.of_nat (length data) <=? 1024 * n + 5)%Z.
Proof.
  assert (H1 : float_le_int (round2 (size_kb data)) n
               = (round_half_even (size_kb data * 100) <=? 100 * n)%Z).
  { unfold float_le_int, round2, Qle_bool, Qdiv, Qmult, Qinv, inject_Z; simpl.
    rewrite !Z.mul_1_r. change (Z.pos (1 * 100)) with 100.
    now rewrite (Z.mul_comm n). }
  rewrite H1.
  assert (Heven : Z.even (100 * n) = true)
    by (rewrite Z.even_mul; reflexivity).
  pose proof (round_half_even_le (size_kb data * 100) (100 * n) Heven) as Hiff.
  assert (Hbytes : (size_kb data * 100 <= inject_Z (100 * n) + (1 # 2))%Q
                   <-> Z.of_nat (length data) <= 1024 * n + 5).
  { unfold size_kb, Qle, Qdiv, Qmult, Qinv, Qplus, inject_Z; simpl.
    change (Z.pos (1 * 2)) with 2. change (Z.pos (1 * 1024 * 1)) with 1024.
    lia. }
  rewrite Hbytes in Hiff. clear Hbytes H1.
  destruct (Z.leb_spec (round_half_even (size_kb data * 100)) (100 * n));
    destruct (Z.leb_spec (Z.of_nat (length data)) (1024 * n + 5));
    try reflexivity; lia.
Qed.

(** X13: the png path reports [ok] exactly when the encoded png has at most
    [1024 * target_kb + 5] bytes, and [png_over_target] otherwise: the budget
    is tested on the size rounded to two decimals, which forgives up to five
    bytes. *)
Theorem png_status_threshold
    (save : Image -> string -> save_params -> bytes) (img : Image)
    (target_kb : Z) :
  exists out meta log,
    compress_png_mvp save img target_kb [] = (Returns (out, meta), log)
    /\ (meta !! "status" = Some (PyStr "ok")
        <-> Z.of_nat (length out) <= 1024 * target_kb + 5)
    /\ (meta !! "status" = Some (PyStr "png_over_target")
        <-> 1024 * target_kb + 5 < Z.of_nat (length out)).
Proof.
  destruct (compress_png_mvp_result save img target_kb)
    as (meta & Hrun & Hst & _).
  cbv zeta in Hrun, Hst. do 3 eexists. split; [exact Hrun |].
  rewrite Hst, rounded_size_le.
  destruct (Z.leb_spec
              (Z.of_nat (length (save img "PNG"
                                   (mkParams None (Some true) (Some 9)))))
              (1024 * target_kb + 5)) as [Hle | Hgt].
  - split; [tauto |]. split; [discriminate | lia].
  - split; [| tauto]. split; [discriminate | lia].
Qed.

(** ** Normalisation beyond its contract *)

(** The result of a normalisation, branch by branch. *)
Lemma normalize_cases (getrgb : string -> outcome rgb) (σ : store) (r : ref)
    (im : Image) (out_fmt bg : string) :
  σ !! r = Some im ->
  normalize_for_output getrgb r out_fmt bg σ
  = if String.eqb out_fmt "jpg" then
      if has_alpha im then
        match getrgb bg with
        | Returns c =>
            let base := PIL.filled_image (im_width im, im_height im) c in
            (Returns (length σ + 4)%nat,
             σ ++ [base; PIL.rgba_image im; PIL.rgba_image base;
                   PIL.composite_image (PIL.rgba_image base)
                     (PIL.rgba_pixels base) (PIL.rgba_pixels im);
                   flattened im c])
        | Raises e => (Raises e, σ)
        end
      else if negb (String.eqb (mode im) "RGB")
           then (Returns (length σ), σ ++ [PIL.rgb_image im])
           else (Returns r, σ)
    else (Returns r, σ).
Proof.
  intros Hr. destruct (String.eqb_spec out_fmt "jpg") as [-> | Hfmt].
  - destruct (has_alpha im) eqn:Halpha.
    + destruct (getrgb bg) as [c | e] eqn:Hc.
      * exact (normalize_flatten getrgb σ r im bg c Hr Halpha Hc).
      * unfold normalize_for_output.
        change (String.eqb "jpg" "jpg") with true. cbv iota.
        rewrite (bind_returns _ _ _ _ _ (deref_run _ _ _ Hr)), Halpha.
        apply bind_raises. unfold St.lift. now rewrite Hc.
    + unfold normalize_for_output.
      change (String.eqb "jpg" "jpg") with true. cbv iota.
      rewrite (bind_returns _ _ _ _ _ (deref_run _ _ _ Hr)), Halpha.
      destruct (negb (String.eqb (mode im) "RGB")); [| reflexivity].
      exact (convert_rgb_run _ _ _ Hr).
  - unfold normalize_for_output.
    destruct (String.eqb_spec out_fmt "jpg"); [contradiction | reflexivity].
Qed.

(** X14: the background string is parsed only to flatten: for jpg and a
    source with alpha, an unparsable colour makes normalisation raise that
    [ValueError] with nothing allocated; for every other format or a source
    without alpha, normalisation returns whatever the colour string is. *)
Theorem background_parsed_only_to_flatten
    (getrgb : string -> outcome rgb) (σ : store) (r : ref) (im : Image)
    (out_fmt bg : string) :
  σ !! r = Some im ->
  (out_fmt = "jpg" -> has_alpha im = true ->
   forall e, getrgb bg = Raises e ->
     normalize_for_output getrgb r out_fmt bg σ = (Raises e, σ))
  /\ (out_fmt <> "jpg" \/ has_alpha im = false ->
      exists r' σ',
        forall getrgb' bg',
          normalize_for_output getrgb' r out_fmt bg' σ = (Returns r', σ')).
Proof.
  intros Hr. split.
  - intros -> Halpha e He.
    rewrite (normalize_cases getrgb σ r im "jpg" bg Hr). simpl.
    now rewrite Halpha, He.
  - intros Hwhy.
    destruct (String.eqb_spec out_fmt "jpg") as [-> | Hfmt].
    + destruct Hwhy as [? | Halpha]; [contradiction |].
      destruct (negb (String.eqb (mode im) "RGB")) eqn:Hmode.
      * exists (length σ), (σ ++ [PIL.rgb_image im]). intros g b.
        rewrite (normalize_cases g σ r im "jpg" b Hr). simpl.
        now rewrite Halpha, Hmode.
      * exists r, σ. intros g b.
        rewrite (normalize_cases g σ r im "jpg" b Hr). simpl.
        now rewrite Halpha, Hmode.
    + exists r, σ. intros g b.
      rewrite (normalize_cases g σ r im out_fmt b Hr).
      destruct (String.eqb_spec out_fmt "jpg"); [contradiction | reflexivity].
Qed.

Lemma background_parsed_only_to_flatten_witness :
  [sample_rgba] !! 0%nat = Some sample_rgba
  /\ normalize_for_output sample_getrgb 0%nat "jpg" "no such colour"
                          [sample_rgba]
     = (Raises (ValueError "unknown color specifier"), [sample_rgba]).
Proof.
  assert (H1 : [sample_rgba] !! 0%nat = Some sample_rgba) by reflexivity.
  split; [exact H1 |].
  exact (proj1 (background_parsed_only_to_flatten sample_getrgb [sample_rgba]
                  0%nat sample_rgba "jpg" "no such colour" H1)
           eq_refl eq_refl _ eq_refl).
Defined.

(** What a normalisation for jpg returns. *)
Lemma normalize_jpg_result (getrgb : string -> outcome rgb) (σ σ' : store)
    (r r' : ref) (im : Image) (bg : string) :
  σ !! r = Some im ->
  normalize_for_output getrgb r "jpg" bg σ = (Returns r', σ') ->
  exists im',
    σ' !! r' = Some im'
    /\ mode im' = "RGB" /\ has_alpha im' = false
    /\ im_width im' = im_width im /\ im_height im' = im_height im.
Proof.
  intros Hr Hrun. rewrite (normalize_cases getrgb σ r im "jpg" bg Hr) in Hrun.
  simpl in Hrun. destruct (has_alpha im) eqn:Halpha.
  - destruct (getrgb bg) as [c | e]; [| discriminate].
    inversion Hrun; subst. exists (flattened im c). split.
    + rewrite lookup_app_r by lia.
      replace (length σ + 4 - length σ)%nat with 4%nat by lia. reflexivity.
    + repeat split; reflexivity.
  - destruct (String.eqb_spec (mode im) "RGB") as [Hmode | Hmode];
      simpl in Hrun; inversion Hrun; subst.
    + exists im. repeat split; assumption.
    + exists (PIL.rgb_image im). split.
      * apply list_lookup_middle. reflexivity.
      * repeat split; reflexivity.
Qed.

(** X15: whatever the source mode, the image a normalisation for jpg returns
    is in RGB mode, carries no alpha, and has the width and height of the
    source. *)
Theorem jpg_normalisation_yields_rgb
    (getrgb : string -> outcome rgb) (σ σ' : store) (r r' : ref) (im : Image)
    (bg : string) :
  σ !! r = Some im ->
  normalize_for_output getrgb r "jpg" bg σ = (Returns r', σ') ->
  exists im',
    σ' !! r' = Some im'
    /\ mode im' = "RGB" /\ has_alpha im' = false
    /\ im_width im' = im_width im /\ im_height im' = im_height im.
Proof. exact (normalize_jpg_result getrgb σ σ' r r' im bg). Qed.

Lemma jpg_normalisation_yields_rgb_witness :
  [sample_rgba] !! 0%nat = Some sample_rgba
  /\ exists r' σ' im',
       normalize_for_output sample_getrgb 0%nat "jpg" "#ffffff" [sample_rgba]
       = (Returns r', σ')
       /\ σ' !! r' = Some im' /\ mode im' = "RGB" /\ has_alpha im' = false
       /\ im_width im' = 2 /\ im_height im' = 1.
Proof.
  assert (H1 : [sample_rgba] !! 0%nat = Some sample_rgba) by reflexivity.
  split; [exact H1 |].
  assert (H2 : normalize_for_output sample_getrgb 0%nat "jpg" "#ffffff"
                 [sample_rgba]
               = (Returns 5%nat,
                  snd (normalize_for_output sample_getrgb 0%nat "jpg" "#ffffff"
                         [sample_rgba])))
    by (apply injective_projections; reflexivity).
  destruct (jpg_normalisation_yields_rgb sample_getrgb _ _ 0%nat _ sample_rgba
              "#ffffff" H1 H2) as (im' & Him').
  eexists _, _, im'. split; [exact H2 | exact Him'].
Defined.

(** X16: normalisation for jpg is idempotent: normalising its result again,
    with any background, returns the same image object and allocates
    nothing. *)
Theorem jpg_normalisation_idempotent
    (getrgb getrgb' : string -> outcome rgb) (σ σ' : store) (r r' : ref)
    (im : Image) (bg bg' : string) :
  σ !! r = Some im ->
  normalize_for_output getrgb r "jpg" bg σ = (Returns r', σ') ->
  normalize_for_output getrgb' r' "jpg" bg' σ' = (Returns r', σ').
Proof.
  intros Hr Hrun.
  destruct (normalize_jpg_result getrgb σ σ' r r' im bg Hr Hrun)
    as (im' & Hr' & Hmode & Halpha & _).
  rewrite (normalize_cases getrgb' σ' r' im' "jpg" bg' Hr'). simpl.
  now rewrite Halpha, Hmode.
Qed.

Lemma jpg_normalisation_idempotent_witness :
  [sample_rgba] !! 0%nat = Some sample_rgba
  /\ normalize_for_output sample_getrgb 5%nat "jpg" "no such colour"
       (snd (normalize_for_output sample_getrgb 0%nat "jpg" "#ffffff"
               [sample_rgba]))
     = (Returns 5%nat,
        snd (normalize_for_output sample_getrgb 0%nat "jpg" "#ffffff"
               [sample_rgba])).
Proof.
  assert (H1 : [sample_rgba] !! 0%nat = Some sample_rgba) by reflexivity.
  split; [exact H1 |].
  assert (H2 : normalize_for_output sample_getrgb 0%nat "jpg" "#ffffff"
                 [sample_rgba]
               = (Returns 5%nat,
                  snd (normalize_for_output sample_getrgb 0%nat "jpg" "#ffffff"
                         [sample_rgba])))
    by (apply injective_projections; reflexivity).
  exact (jpg_normalisation_idempotent sample_getrgb sample_getrgb _ _ 0%nat
           5%nat sample_rgba "#ffffff" "no such colour" H1 H2).
Defined.

(** ** Normalisation followed by compression *)

Lemma search_log_shape
    (save : Image -> string -> save_params -> bytes) (img : Image)
    (out_fmt : string) (target_kb q_min q_max : Z) :
  is_lossy out_fmt = true ->
  exists qs,
    snd (find_best_quality_lossy save img out_fmt target_kb q_min q_max [])
    = map (the_call img out_fmt) qs.
Proof.
  intros Hlossy.
  destruct (search_cases save img out_fmt target_kb Hlossy q_min q_max)
    as [[_ H] | [(_ & _ & H) | (_ & _ & mids & b & q & it & _ & H)]];
    rewrite H; simpl snd.
  - now exists [q_max].
  - now exists [q_max; q_min].
  - now exists (q_max :: q_min :: mids).
Qed.

Lemma compress_lossy_log
    (save : Image -> string -> save_params -> bytes) (img : Image)
    (args : Namespace) :
  is_lossy (out_fmt args) = true ->
  snd (compress save img args [])
  = snd (find_best_quality_lossy save img (out_fmt args) (target_kb args)
                                 (q_min args) (q_max args) []).
Proof.
  intros Hlossy.
  destruct (search_returns save img (out_fmt args) (target_kb args)
              (q_min args) (q_max args) Hlossy)
    as (b & q & it & st & log & Hrun).
  unfold compress. rewrite Hlossy, (bind_returns _ _ _ _ _ Hrun), Hrun.
  reflexivity.
Qed.

(** X17: as [main] chains them, normalisation then compression for jpg hands
    the encoder only the normalised image: every [img.save] call of
    [compress] is in format JPEG on an RGB image without alpha, whatever the
    mode of the image loaded. *)
Theorem jpg_encoder_gets_rgb
    (getrgb : string -> outcome rgb)
    (save : Image -> string -> save_params -> bytes)
    (σ σ' : store) (r r' : ref) (im : Image) (args : Namespace) :
  σ !! r = Some im ->
  out_fmt args = "jpg" ->
  normalize_for_output getrgb r (out_fmt args) (bg args) σ = (Returns r', σ') ->
  forall c, c ∈ snd (compress save (σ' !!! r') args []) ->
    call_fmt c = "JPEG"
    /\ mode (call_img c) = "RGB" /\ has_alpha (call_img c) = false.
Proof.
  intros Hr Hfmt Hrun c Hc. rewrite Hfmt in Hrun.
  destruct (normalize_jpg_result getrgb σ σ' r r' im (bg args) Hr Hrun)
    as (im' & Hr' & Hmode & Halpha & _).
  rewrite (list_lookup_total_correct _ _ _ Hr') in Hc.
  assert (Hlossy : is_lossy (out_fmt args) = true) by now rewrite Hfmt.
  rewrite (compress_lossy_log save im' args Hlossy) in Hc.
  destruct (search_log_shape save im' (out_fmt args) (target_kb args)
              (q_min args) (q_max args) Hlossy) as [qs Hqs].
  rewrite Hqs in Hc. apply list_elem_of_In, in_map_iff in Hc.
  destruct Hc as (q & <- & _). rewrite Hfmt.
  repeat split; assumption.
Qed.

Lemma jpg_encoder_gets_rgb_witness :
  [sample_rgba] !! 0%nat = Some sample_rgba
  /\ forall c,
       c ∈ snd (compress (sized_save (step_kb 60))
                  (snd (normalize_for_output sample_getrgb 0%nat "jpg"
                          "#ffffff" [sample_rgba]) !!! 5%nat)
                  (mkArgs "in.png" "jpg" 0 "./output" "#ffffff" 25 95) []) ->
       call_fmt c = "JPEG"
       /\ mode (call_img c) = "RGB" /\ has_alpha (call_img c) = false.
Proof.
  assert (H1 : [sample_rgba] !! 0%nat = Some sample_rgba) by reflexivity.
  split; [exact H1 |].
  assert (H2 : normalize_for_output sample_getrgb 0%nat "jpg" "#ffffff"
                 [sample_rgba]
               = (Returns 5%nat,
                  snd (normalize_for_output sample_getrgb 0%nat "jpg" "#ffffff"
                         [sample_rgba])))
    by (apply injective_projections; reflexivity).
  exact (jpg_encoder_gets_rgb sample_getrgb (sized_save (step_kb 60))
           [sample_rgba] _ 0%nat 5%nat sample_rgba
           (mkArgs "in.png" "jpg" 0 "./output" "#ffffff" 25 95)
           H1 eq_refl H2).
Defined.
